(** * insect-detect: yolo_tracker_save_hqsync.py

    A shallow embedding of the recording script: the start-up disk check,
    the opening of the recording session, the scheduler set-up, the
    [while] loop that drains the frame and tracker queues, the per-tracklet
    [for] loop with the [lost_frames] bookkeeping, and the [finally] block.

    The script talks to the outside world (clock, disk probe, camera
    queues, worker threads, the apscheduler thread).  Everything the script
    reads from there is an input of the model ([Startup], [Tick]);
    everything it does to it is an [Event] of the trace the model returns.

    Abstractions: [time.monotonic()] is a float number of seconds and is
    read here as an integer number of milliseconds; numpy frames and the
    tracklet list are heap objects and are represented by their address
    ([Ref]); bounding boxes, labels and confidences are payload that no
    control decision depends on and are left out, and the calls that only
    compute them ([frame_norm], the label lookup) are taken to return. *)

From Stdlib Require Import ZArith List Bool Lia.
Import ListNotations.
Open Scope Z_scope.

(** ** Command line arguments and constants (lines 80-129) *)

Inductive FullMode := det | freq.

Record Args := {
  min_rec_time : Z;                     (* -min, 1..720 *)
  four_k_resolution : bool;             (* -4k *)
  af_range : option (Z * Z);            (* -af *)
  bbox_ae_region : bool;                (* -ae *)
  crop_square : bool;                   (* -crop square | tight *)
  save_full_frames : option FullMode;   (* -full det | freq, default None *)
  save_overlay_frames : bool;           (* -overlay *)
  save_logs : bool;                     (* -log *)
  zip_data : bool                       (* -zip *)
}.

Definition MIN_DISKSPACE : Z := 100.
Definition CAPTURE_FREQ : Z := 1.
Definition FULL_FREQ : Z := 60.
Definition LOG_FREQ : Z := 30.
Definition REC_TIME (args : Args) : Z := min_rec_time args * 60.
Definition LOST_FRAMES_TILL_REMOVAL : Z := 3.

(** Seconds to clock units (milliseconds). *)
Definition seconds (s : Z) : Z := s * 1000.

Definition is_det (m : option FullMode) : bool :=
  match m with Some det => true | _ => false end.
Definition is_freq (m : option FullMode) : bool :=
  match m with Some freq => true | _ => false end.
Definition is_some {A} (o : option A) : bool :=
  match o with Some _ => true | None => false end.

(** ** Tracker output *)

Inductive Status := NEW | TRACKED | LOST | REMOVED.

Record Tracklet := {
  id : Z;
  status : Status;
  label : Z
}.

Definition is_TRACKED (s : Status) : bool :=
  match s with TRACKED => true | _ => false end.

(** Heap objects (frames, the tracklet list) and thread handles are named
    by allocation order. *)
Definition Ref := nat.
Definition Thread := nat.

(** ** Python exceptions that can leave the loop *)

Inductive Exn :=
| RuntimeError          (* dictionary changed size during iteration *)
| SaveError             (* whatever save_crop_metadata raises *)
| KeyboardInterrupt
| CalledProcessError    (* subprocess.run(..., check=True) *)
| NameError.

(** ** Observable actions *)

Inductive LogMsg :=
| LogLowDisk (mb : Z)   (* "Shut down without recording | Free disk space left" *)
| LogRecStart           (* "Rec ID: %s | Rec time: %s min" *)
| LogRecFinished        (* "Recording %s finished" *)
| LogException.         (* logger.exception of the commented-out handler, lines 370-372 *)

Inductive Dir := DirSession | DirFull | DirOverlay | DirCrop (cls : nat).
Inductive Job := JobLog | JobFull.

Inductive Event :=
| EvLog (m : LogMsg)
| EvShutdownCmd                                    (* sudo shutdown -h now *)
| EvWriteRecId                                     (* rec_id_file.write_text *)
| EvMkdir (d : Dir)
| EvAddJob (j : Job)
| EvSchedulerStart
| EvSendAfCtrl
| EvCheckStop (now free : Z) (go_on : bool)        (* the while header is evaluated *)
| EvModifyFullJob (frame : Ref)                    (* scheduler.modify_job("full", ...) *)
| EvCopyFrame (src dst : Ref)                      (* frame_hq.copy() *)
| EvSendAeCtrl (track_id : Z)
| EvSaveCrop (frame : Ref) (track_id : Z) (ok : bool)  (* save_crop_metadata, synchronous *)
| EvStartFull (th : Thread) (frame : Ref)          (* Thread(target=save_full_frame).start() *)
| EvStartOverlay (th : Thread) (frame : Ref) (track_id : Z) (tracks : Ref)
| EvLostUpdate (current_track_ids : list Z)        (* lines 340-352 are entered *)
| EvPrintRemoving (track_id : Z)
| EvSendTrackData (track_id : Z)                   (* send_track_data *)
| EvProbeDisk (mb : Z)                             (* psutil.disk_usage, line 355 *)
| EvPrune (kept : list Thread)                     (* line 358 *)
| EvSleep (secs : Z)
| EvFullJobFires (frame : option Ref)              (* scheduler thread: save_full_frame(frame, save_path) *)
| EvSchedulerShutdown
| EvJoin (th : Thread)
| EvRecordLog
| EvZip.

(** ** The mutable state of the script *)

(** [lost_frames] is a [defaultdict(int)]: an insertion-ordered table. *)
Definition Dict := list (Z * Z).

Record State := {
  lost_frames : Dict;
  threads : list Thread;
  disk_free : Z;
  full_job : option (option Ref);   (* args[0] of the scheduler job "full", if the job exists *)
  next_ref : nat;
  next_thread : nat
}.

Definition set_lost_frames (d : Dict) (s : State) : State :=
  {| lost_frames := d; threads := threads s; disk_free := disk_free s;
     full_job := full_job s; next_ref := next_ref s; next_thread := next_thread s |}.
Definition set_threads (l : list Thread) (s : State) : State :=
  {| lost_frames := lost_frames s; threads := l; disk_free := disk_free s;
     full_job := full_job s; next_ref := next_ref s; next_thread := next_thread s |}.
Definition set_disk_free (z : Z) (s : State) : State :=
  {| lost_frames := lost_frames s; threads := threads s; disk_free := z;
     full_job := full_job s; next_ref := next_ref s; next_thread := next_thread s |}.
Definition set_full_job (j : option (option Ref)) (s : State) : State :=
  {| lost_frames := lost_frames s; threads := threads s; disk_free := disk_free s;
     full_job := j; next_ref := next_ref s; next_thread := next_thread s |}.
Definition set_next_ref (n : nat) (s : State) : State :=
  {| lost_frames := lost_frames s; threads := threads s; disk_free := disk_free s;
     full_job := full_job s; next_ref := n; next_thread := next_thread s |}.
Definition set_next_thread (n : nat) (s : State) : State :=
  {| lost_frames := lost_frames s; threads := threads s; disk_free := disk_free s;
     full_job := full_job s; next_ref := next_ref s; next_thread := n |}.

(** ** A state, exception and trace monad *)

Inductive Res (A : Type) :=
| Ok (a : A)
| Raise (e : Exn).
Arguments Ok {A} a.
Arguments Raise {A} e.

Definition M (A : Type) : Type := State -> Res A * State * list Event.

Definition ret {A} (a : A) : M A := fun s => (Ok a, s, []).

Definition bind {A B} (m : M A) (k : A -> M B) : M B :=
  fun s =>
    match m s with
    | (Ok a, s1, t1) =>
        match k a s1 with
        | (r, s2, t2) => (r, s2, t1 ++ t2)
        end
    | (Raise e, s1, t1) => (Raise e, s1, t1)
    end.

Definition raise {A} (e : Exn) : M A := fun s => (Raise e, s, []).
Definition emit (e : Event) : M unit := fun s => (Ok tt, s, [e]).
Definition get : M State := fun s => (Ok s, s, []).
Definition modify (f : State -> State) : M unit := fun s => (Ok tt, f s, []).
Definition when (b : bool) (m : M unit) : M unit := if b then m else ret tt.

Notation "x <- m ;; k" := (bind m (fun x => k))
  (at level 61, m at next level, right associativity).
Notation "m ;; k" := (bind m (fun _ => k))
  (at level 61, right associativity).

Definition result {A} (r : Res A * State * list Event) : Res A := fst (fst r).
Definition final {A} (r : Res A * State * list Event) : State := snd (fst r).
Definition trace {A} (r : Res A * State * list Event) : list Event := snd r.

(** ** The [lost_frames] table (lines 129, 340-352) *)

Fixpoint dict_get (d : Dict) (k : Z) : option Z :=
  match d with
  | [] => None
  | (k', v) :: r => if k' =? k then Some v else dict_get r k
  end.

(** [d[k] = v]: overwrite in place, or insert at the end. *)
Fixpoint dict_set (d : Dict) (k v : Z) : Dict :=
  match d with
  | [] => [(k, v)]
  | (k', v') :: r => if k' =? k then (k', v) :: r else (k', v') :: dict_set r k v
  end.

Fixpoint dict_del (d : Dict) (k : Z) : Dict :=
  match d with
  | [] => []
  | (k', v') :: r => if k' =? k then r else (k', v') :: dict_del r k
  end.

Definition keys (d : Dict) : list Z := map fst d.

(** [defaultdict(int).__getitem__]: a missing key reads as [int() = 0]. *)
Definition default_get (d : Dict) (k : Z) : Z :=
  match dict_get d k with Some v => v | None => 0 end.

Fixpoint mem (k : Z) (l : list Z) : bool :=
  match l with
  | [] => false
  | x :: r => (x =? k) || mem k r
  end.

(** The body of [for track_id in lost_frames.keys()], run over the keys the
    iterator still has to yield.  Overwriting the value of an existing key
    leaves the iteration alone.  [del lost_frames[track_id]] changes the
    size of the table, so the iterator's next step, taken as soon as the
    body ends, raises [RuntimeError]. *)
Fixpoint lost_frames_iter (current_track_ids : list Z) (ks : list Z) : M unit :=
  match ks with
  | [] => ret tt
  | track_id :: rest =>
      if mem track_id current_track_ids then
        (* Case 1: Tracklet is still tracked *)
        modify (fun s => set_lost_frames (dict_set (lost_frames s) track_id 0) s) ;;
        lost_frames_iter current_track_ids rest
      else
        (* Case 2: Tracklet is lost *)
        modify (fun s => set_lost_frames
                  (dict_set (lost_frames s) track_id
                            (default_get (lost_frames s) track_id + 1)) s) ;;
        s <- get ;;
        if default_get (lost_frames s) track_id >=? LOST_FRAMES_TILL_REMOVAL then
          emit (EvPrintRemoving track_id) ;;
          emit (EvSendTrackData track_id) ;;
          modify (fun s => set_lost_frames (dict_del (lost_frames s) track_id) s) ;;
          raise RuntimeError
        else
          lost_frames_iter current_track_ids rest
  end.

(** Lines 340-352, given [current_track_ids]. *)
Definition lost_frames_update (current_track_ids : list Z) : M unit :=
  emit (EvLostUpdate current_track_ids) ;;
  s <- get ;;
  lost_frames_iter current_track_ids (keys (lost_frames s)).

(** ** What the script reads from the outside world *)

(** One iteration of the [while] loop. *)
Record Tick := {
  now : Z;                    (* time.monotonic() in the while header *)
  q_frame_has : bool;         (* q_frame.has() *)
  q_track_has : bool;         (* q_track.has() *)
  tracks : list Tracklet;     (* q_track.get().tracklets *)
  crop_fails : nat -> bool;   (* save_crop_metadata raises for the tracklet at this index *)
  free_bytes : Z;             (* psutil.disk_usage("/").free, line 355 *)
  is_alive : Thread -> bool;  (* thread.is_alive(), line 358 *)
  full_fires : bool;          (* the interval of job "full" elapses during the sleep *)
  interrupt : bool            (* Ctrl+C arrives during the sleep *)
}.

(** Start of the script. *)
Record Startup := {
  start_free_bytes : Z;       (* psutil.disk_usage("/").free, line 139 *)
  shutdown_returns : bool;    (* the shutdown command exits with status 0 *)
  num_labels : nat;           (* len(labels) of the model config *)
  start_time : Z              (* time.monotonic(), line 282 *)
}.

(** [round(free / 1048576)]: the quotient is exact in floating point for
    any realistic byte count, and Python rounds halves to even. *)
Definition round_div (a b : Z) : Z :=
  let q := a / b in
  let r2 := 2 * (a mod b) in
  if r2 <? b then q
  else if b <? r2 then q + 1
  else if Z.even q then q else q + 1.

Definition free_mb (bytes : Z) : Z := round_div bytes 1048576.

(** ** The per-tracklet loop (lines 302-352) *)

Definition alloc : M Ref :=
  s <- get ;;
  modify (set_next_ref (S (next_ref s))) ;;
  ret (next_ref s).

(** [threading.Thread(...)], [.start()] (the event), [threads.append(...)]. *)
Definition start_thread (ev : Thread -> Event) : M unit :=
  s <- get ;;
  let th := next_thread s in
  modify (set_next_thread (S th)) ;;
  emit (ev th) ;;
  modify (fun s => set_threads (threads s ++ [th]) s).

Definition save_crop_metadata (e : Tick) (i : nat) (frame : Ref) (track_id : Z) : M unit :=
  if crop_fails e i then
    emit (EvSaveCrop frame track_id false) ;; raise SaveError
  else
    emit (EvSaveCrop frame track_id true).

(** [tracklet == tracks[-1]]: depthai's Tracklet defines no [__eq__], so the
    comparison is object identity, that is, position in the list. *)
Definition is_last (n i : nat) : bool := Nat.eqb (S i) n.

Section Loop.

Variable args : Args.

(** Lines 304-338: what is saved for the tracklet at index [i]. *)
Definition tracklet_save (e : Tick) (frame_hq : Ref) (frame_hq_copy : option Ref)
    (tracks_ref : Ref) (i : nat) (tracklet : Tracklet) : M unit :=
  let n := length (tracks e) in
  if is_TRACKED (status tracklet) then
    let track_id := id tracklet in
    when (bbox_ae_region args && is_last n i) (emit (EvSendAeCtrl track_id)) ;;
    save_crop_metadata e i frame_hq track_id ;;
    when (is_det (save_full_frames args) && is_last n i)
         (start_thread (fun th => EvStartFull th frame_hq)) ;;
    when (save_overlay_frames args)
         (match frame_hq_copy with
          | Some c => start_thread (fun th => EvStartOverlay th c track_id tracks_ref)
          | None => raise NameError
          end)
  else ret tt.

(** The body of [for tracklet in tracks], for the tracklet at index [i]:
    lines 304-338, then lines 340-352, which are indented to the same
    depth. *)
Definition tracklet_body (e : Tick) (frame_hq : Ref) (frame_hq_copy : option Ref)
    (tracks_ref : Ref) (i : nat) (tracklet : Tracklet) : M unit :=
  tracklet_save e frame_hq frame_hq_copy tracks_ref i tracklet ;;
  lost_frames_update (map id (tracks e)).

Fixpoint for_tracks (body : nat -> Tracklet -> M unit) (i : nat) (l : list Tracklet)
    : M unit :=
  match l with
  | [] => ret tt
  | tracklet :: rest => body i tracklet ;; for_tracks body (S i) rest
  end.

(** [scheduler.modify_job("full", args=[frame_hq, save_path])] *)
Definition modify_job (frame_hq : Ref) : M unit :=
  emit (EvModifyFullJob frame_hq) ;;
  modify (set_full_job (Some (Some frame_hq))).

(** Lines 290-352: one synchronized sample, if both queues have one. *)
Definition process_sample (e : Tick) : M unit :=
  if q_frame_has e && q_track_has e then
    frame_hq <- alloc ;;
    tracks_ref <- alloc ;;
    when (is_freq (save_full_frames args)) (modify_job frame_hq) ;;
    frame_hq_copy <- (if save_overlay_frames args
                      then c <- alloc ;; emit (EvCopyFrame frame_hq c) ;; ret (Some c)
                      else ret None) ;;
    for_tracks (tracklet_body e frame_hq frame_hq_copy tracks_ref) 0 (tracks e)
  else ret tt.

(** The scheduler thread runs beside the main thread.  A firing of job
    "full" is placed in the sleep of the iteration in which its interval
    elapses; it calls [save_full_frame] with the arguments the job has at
    that moment. *)
Definition fire (e : Tick) : M unit :=
  s <- get ;;
  when (full_fires e)
       (match full_job s with
        | Some frame => emit (EvFullJobFires frame)
        | None => ret tt
        end).

(** [time.sleep(CAPTURE_FREQ)] *)
Definition sleep (e : Tick) : M unit :=
  emit (EvSleep CAPTURE_FREQ) ;;
  fire e ;;
  when (interrupt e) (raise KeyboardInterrupt).

(** Update free disk space (MB) *)
Definition probe_disk (e : Tick) : M unit :=
  modify (set_disk_free (free_mb (free_bytes e))) ;;
  emit (EvProbeDisk (free_mb (free_bytes e))).

(** Keep only active threads in list *)
Definition prune (e : Tick) : M unit :=
  modify (fun s => set_threads (filter (is_alive e) (threads s)) s) ;;
  s <- get ;;
  emit (EvPrune (threads s)).

(** Lines 289-361: the body of the [while] loop. *)
Definition loop_body (e : Tick) : M unit :=
  process_sample e ;;
  probe_disk e ;;
  prune e ;;
  sleep e.

(** Line 288. *)
Definition loop_cond (start now_ free : Z) : bool :=
  (now_ <? start + seconds (REC_TIME args)) && (free >? MIN_DISKSPACE).

(** The [while] loop over the iterations the environment describes.  The
    result is [true] when the loop has ended and [false] when the given
    iterations are used up with the loop still running. *)
Fixpoint while_loop (start : Z) (ticks : list Tick) : M bool :=
  match ticks with
  | [] => ret false
  | e :: rest =>
      s <- get ;;
      let go_on := loop_cond start (now e) (disk_free s) in
      emit (EvCheckStop (now e) (disk_free s) go_on) ;;
      if go_on then loop_body e ;; while_loop start rest
      else ret true
  end.

(** Lines 285-364: the [try] block. *)
Definition try_block (start : Z) (ticks : list Tick) : M bool :=
  ended <- while_loop start ticks ;;
  when ended (emit (EvLog LogRecFinished)) ;;
  ret ended.

Definition has_scheduler : bool :=
  save_logs args || is_freq (save_full_frames args).

Fixpoint join_all (l : list Thread) : M unit :=
  match l with
  | [] => ret tt
  | th :: rest => emit (EvJoin th) ;; join_all rest
  end.

(** Lines 374-389: the [finally] block. *)
Definition finally_block : M unit :=
  when has_scheduler (emit EvSchedulerShutdown) ;;
  s <- get ;;
  join_all (threads s) ;;
  emit EvRecordLog ;;
  when (zip_data args) (emit EvZip).

(** [try: body finally: fin].  A body that is still running ([Ok false])
    has not reached [finally]. *)
Definition try_finally (body : M bool) (fin : M unit) : M bool :=
  fun s =>
    match body s with
    | (Ok false, s1, t1) => (Ok false, s1, t1)
    | (r, s1, t1) =>
        match fin s1 with
        | (Ok _, s2, t2) => (r, s2, t1 ++ t2)
        | (Raise x, s2, t2) => (Raise x, s2, t1 ++ t2)
        end
    end.

(** Lines 138-142. *)
Definition disk_check (su : Startup) : M unit :=
  modify (set_disk_free (free_mb (start_free_bytes su))) ;;
  s <- get ;;
  when (disk_free s <? MIN_DISKSPACE)
       (emit (EvLog (LogLowDisk (disk_free s))) ;;
        emit EvShutdownCmd ;;
        when (negb (shutdown_returns su)) (raise CalledProcessError)).

Fixpoint mkdir_crops (n : nat) : M unit :=
  match n with
  | O => ret tt
  | S k => mkdir_crops k ;; emit (EvMkdir (DirCrop k))
  end.

(** Lines 144-175: recording ID and the directories of the session. *)
Definition open_session (su : Startup) : M unit :=
  emit EvWriteRecId ;;
  emit (EvMkdir DirSession) ;;
  when (is_some (save_full_frames args)) (emit (EvMkdir DirFull)) ;;
  when (save_overlay_frames args) (emit (EvMkdir DirOverlay)) ;;
  mkdir_crops (num_labels su).

(** Lines 246-279: scheduler jobs, start of recording, focus control. *)
Definition setup : M unit :=
  when (save_logs args) (emit (EvAddJob JobLog) ;; emit EvSchedulerStart) ;;
  when (is_freq (save_full_frames args))
       (emit (EvAddJob JobFull) ;;
        modify (set_full_job (Some None)) ;;
        when (negb (save_logs args)) (emit EvSchedulerStart)) ;;
  emit (EvLog LogRecStart) ;;
  when (is_some (af_range args)) (emit EvSendAfCtrl).

(** The script from line 138 on. *)
Definition script (su : Startup) (ticks : list Tick) : M bool :=
  disk_check su ;;
  open_session su ;;
  setup ;;
  modify (set_threads []) ;;
  try_finally (try_block (start_time su) ticks) finally_block.

End Loop.

(** The state the module starts in: [lost_frames = defaultdict(int)]. *)
Definition init : State :=
  {| lost_frames := []; threads := []; disk_free := 0; full_job := None;
     next_ref := O; next_thread := O |}.

Definition run (args : Args) (su : Startup) (ticks : list Tick) :=
  script args su ticks init.

(** ** Vocabulary for the statements *)

(** Feeding the tracker a sequence of active-ID lists: one run of lines
    340-352 per list. *)
Fixpoint feed (calls : list (list Z)) : M unit :=
  match calls with
  | [] => ret tt
  | current_track_ids :: rest => lost_frames_update current_track_ids ;; feed rest
  end.

Definition is_send (e : Event) : bool :=
  match e with EvSendTrackData _ => true | _ => false end.
Definition is_update (e : Event) : bool :=
  match e with EvLostUpdate _ => true | _ => false end.
Definition is_crop (e : Event) : bool :=
  match e with EvSaveCrop _ _ _ => true | _ => false end.
Definition is_start_full (e : Event) : bool :=
  match e with EvStartFull _ _ => true | _ => false end.
Definition is_start_overlay (e : Event) : bool :=
  match e with EvStartOverlay _ _ _ _ => true | _ => false end.
Definition is_check (e : Event) : bool :=
  match e with EvCheckStop _ _ _ => true | _ => false end.

Definition count (p : Event -> bool) (t : list Event) : nat :=
  length (filter p t).

(** Events that only one place of the script produces are treated there.
    Of the others, [plain_loop] are those of the loop and [plain] those of
    the code around it. *)
Definition plain_loop (e : Event) : bool :=
  match e with
  | EvModifyFullJob _ | EvSendAeCtrl _ | EvProbeDisk _ | EvSleep _ => true
  | _ => false
  end.

Definition plain (e : Event) : bool :=
  match e with
  | EvLog LogException => false
  | EvLog _ | EvShutdownCmd | EvWriteRecId | EvMkdir _ | EvAddJob _
  | EvSchedulerStart | EvSendAfCtrl
  | EvSchedulerShutdown | EvJoin _ | EvRecordLog | EvZip => true
  | _ => false
  end.


(** The actions before the loop. *)
Definition is_setup (e : Event) : bool :=
  match e with
  | EvLog (LogLowDisk _) | EvLog LogRecStart | EvShutdownCmd | EvWriteRecId
  | EvMkdir _ | EvAddJob _ | EvSchedulerStart | EvSendAfCtrl => true
  | _ => false
  end.




(** A property [I] of the trace so far and the current state that a
    computation keeps, whether it returns or raises. *)
Definition inv (I : list Event -> State -> Prop) {A} (m : M A) : Prop :=
  forall t s, I t s -> I (t ++ trace (m s)) (final (m s)).

(** An invariant made of a property of the state and a property of every
    event produced so far. *)
Definition both (P : State -> Prop) (Q : Event -> Prop)
    (t : list Event) (s : State) : Prop :=
  P s /\ Forall Q t.

(** A computation that produces no event of kind [p]. *)
Definition quiet (p : Event -> bool) {A} (m : M A) : Prop :=
  inv (both (fun _ => True) (fun e => p e = false)) m.

(** The objects a sample brings into being (lines 291-300): [frame_hq]
    and [tracks] are fresh, and so is [frame_hq_copy] when overlays are
    saved. *)
Definition frame_hq_of (s : State) : Ref := next_ref s.
Definition tracks_of (s : State) : Ref := S (next_ref s).
Definition frame_hq_copy_of (args : Args) (s : State) : option Ref :=
  if save_overlay_frames args then Some (S (S (next_ref s))) else None.

(** The state in which the [for] loop over the tracklets starts. *)
Definition at_for_loop (args : Args) (s : State) : State :=
  {| lost_frames := lost_frames s; threads := threads s; disk_free := disk_free s;
     full_job := if is_freq (save_full_frames args)
                 then Some (Some (frame_hq_of s)) else full_job s;
     next_ref := if save_overlay_frames args
                 then S (S (S (next_ref s))) else S (S (next_ref s));
     next_thread := next_thread s |}.

(** What a sample does before the [for] loop. *)
Definition before_for_loop (args : Args) (s : State) : list Event :=
  (if is_freq (save_full_frames args) then [EvModifyFullJob (frame_hq_of s)] else [])
  ++ (if save_overlay_frames args
      then [EvCopyFrame (frame_hq_of s) (S (S (next_ref s)))] else []).


(** The end of an iteration that got past its sample: disk probe, pruning
    of the thread list, sleep (lines 354-361). *)
Definition after_sleep (e : Tick) (s : State) : State :=
  set_threads (filter (is_alive e) (threads s))
              (set_disk_free (free_mb (free_bytes e)) s).

Definition end_of_iteration (e : Tick) (s : State) : list Event :=
  [EvProbeDisk (free_mb (free_bytes e));
   EvPrune (filter (is_alive e) (threads s));
   EvSleep CAPTURE_FREQ]
  ++ (if full_fires e
      then match full_job s with Some frame => [EvFullJobFires frame] | None => [] end
      else []).

(** The actions of the [finally] block when [ths] is the thread list. *)
Definition finally_events (args : Args) (ths : list Thread) : list Event :=
  (if has_scheduler args then [EvSchedulerShutdown] else [])
  ++ map EvJoin ths
  ++ [EvRecordLog]
  ++ (if zip_data args then [EvZip] else []).

(** The actions before the loop. *)
Definition low_disk (su : Startup) : bool :=
  free_mb (start_free_bytes su) <? MIN_DISKSPACE.

Definition disk_check_events (su : Startup) : list Event :=
  if low_disk su
  then [EvLog (LogLowDisk (free_mb (start_free_bytes su))); EvShutdownCmd]
  else [].

Definition open_session_events (args : Args) (su : Startup) : list Event :=
  [EvWriteRecId; EvMkdir DirSession]
  ++ (if is_some (save_full_frames args) then [EvMkdir DirFull] else [])
  ++ (if save_overlay_frames args then [EvMkdir DirOverlay] else [])
  ++ map (fun k => EvMkdir (DirCrop k)) (seq 0 (num_labels su)).

Definition setup_events (args : Args) : list Event :=
  (if save_logs args then [EvAddJob JobLog; EvSchedulerStart] else [])
  ++ (if is_freq (save_full_frames args)
      then EvAddJob JobFull :: (if save_logs args then [] else [EvSchedulerStart])
      else [])
  ++ [EvLog LogRecStart]
  ++ (if is_some (af_range args) then [EvSendAfCtrl] else []).

Definition pre_loop_events (args : Args) (su : Startup) : list Event :=
  disk_check_events su ++ open_session_events args su ++ setup_events args.

(** The state in which the [try] block is entered. *)
Definition loop_start (args : Args) (su : Startup) : State :=
  {| lost_frames := []; threads := [];
     disk_free := free_mb (start_free_bytes su);
     full_job := if is_freq (save_full_frames args) then Some None else None;
     next_ref := O; next_thread := O |}.

(** The start-up check lets the script go on: the disk is not low, or the
    shutdown command returned. *)
Definition goes_on (su : Startup) : bool :=
  negb (low_disk su) || shutdown_returns su.


(** Job "full" has not been handed a frame by any firing so far. *)
Definition fires_without_frame (e : Event) : bool :=
  match e with EvFullJobFires (Some _) => false | _ => true end.

Definition is_log_exception (e : Event) : bool :=
  match e with EvLog LogException => true | _ => false end.

(** Some TRACKED tracklet of [l], the list from index [i] on, has a crop
    save that raises. *)
Fixpoint crop_failure (e : Tick) (i : nat) (l : list Tracklet) : bool :=
  match l with
  | [] => false
  | tracklet :: rest =>
      (is_TRACKED (status tracklet) && crop_fails e i) || crop_failure e (S i) rest
  end.

(** What one run of lines 340-352 is written to do to the table: a
    counter whose ID is active is reset, any other is incremented. *)
Definition step_entry (current_track_ids : list Z) (kv : Z * Z) : Z * Z :=
  (fst kv, if mem (fst kv) current_track_ids then 0 else snd kv + 1).

Definition step_table (current_track_ids : list Z) (d : Dict) : Dict :=
  map (step_entry current_track_ids) d.

(** No counter of the table gets to the threshold in this update. *)
Definition below_threshold (current_track_ids : list Z) (d : Dict) : Prop :=
  Forall (fun kv => snd (step_entry current_track_ids kv) < LOST_FRAMES_TILL_REMOVAL) d.

(** A clock that at the first iteration reads at least [base] and between
    two iterations advances by at least the sleep. *)
Fixpoint paced (base : Z) (ticks : list Tick) : bool :=
  match ticks with
  | [] => true
  | e :: rest => (base <=? now e) && paced (now e + seconds CAPTURE_FREQ) rest
  end.

Definition is_sleep (e : Event) : bool :=
  match e with EvSleep _ => true | _ => false end.
Definition is_finished_log (e : Event) : bool :=
  match e with EvLog LogRecFinished => true | _ => false end.
Definition is_scheduler_start (e : Event) : bool :=
  match e with EvSchedulerStart => true | _ => false end.
Definition is_scheduler_shutdown (e : Event) : bool :=
  match e with EvSchedulerShutdown => true | _ => false end.
Definition is_ae_ctrl (e : Event) : bool :=
  match e with EvSendAeCtrl _ => true | _ => false end.
Definition is_full_frame_save (e : Event) : bool :=
  match e with EvStartFull _ _ | EvFullJobFires _ => true | _ => false end.

(** The smallest byte counts that [round] takes to 100 MB and to 101 MB. *)
Definition bytes_100MB : Z := 104333312.   (* 99.5 * 1048576, rounded to even: 100 *)
Definition bytes_101MB : Z := 105381889.   (* 100.5 * 1048576 rounds to even: 100 *)

Definition tracked_count (l : list Tracklet) : nat :=
  length (filter (fun tracklet => is_TRACKED (status tracklet)) l).

(** The actions the [while] loop can take. *)
Definition loop_event (e : Event) : bool :=
  match e with
  | EvCheckStop _ _ _ | EvModifyFullJob _ | EvCopyFrame _ _ | EvSendAeCtrl _
  | EvSaveCrop _ _ _ | EvStartFull _ _ | EvStartOverlay _ _ _ _
  | EvLostUpdate _ | EvPrintRemoving _ | EvSendTrackData _
  | EvProbeDisk _ | EvPrune _ | EvSleep _ | EvFullJobFires _ => true
  | _ => false
  end.

(** What follows the loop when it has stopped: the log line of a regular
    end, and the [finally] block. *)
Definition after_loop (args : Args) (r : Res bool) (ths : list Thread) : list Event :=
  match r with
  | Ok false => []
  | Ok true => EvLog LogRecFinished :: finally_events args ths
  | Raise _ => finally_events args ths
  end.

(** The directory under which an action saves. *)
Definition save_dir (e : Event) : option Dir :=
  match e with
  | EvStartFull _ _ | EvFullJobFires _ => Some DirFull
  | EvStartOverlay _ _ _ _ => Some DirOverlay
  | EvSaveCrop _ _ _ => Some DirSession
  | _ => None
  end.

(** ** Concrete inputs *)

(** The argparse defaults. *)
Definition default_args : Args :=
  {| min_rec_time := 2; four_k_resolution := false; af_range := None;
     bbox_ae_region := false; crop_square := true; save_full_frames := None;
     save_overlay_frames := false; save_logs := false; zip_data := false |}.

Definition with_full (m : option FullMode) (overlay : bool) : Args :=
  {| min_rec_time := 2; four_k_resolution := false; af_range := None;
     bbox_ae_region := false; crop_square := true; save_full_frames := m;
     save_overlay_frames := overlay; save_logs := false; zip_data := false |}.

Definition tracked (i : Z) : Tracklet := {| id := i; status := TRACKED; label := 0 |}.

Definition MB : Z := 1048576.

(** An iteration at clock [t] in which both queues deliver, the tracker
    reports the given IDs as TRACKED, every save succeeds, [free] MB are
    free and every worker thread has finished by the end of it. *)
Definition sample_tick (t : Z) (ids : list Z) (free : Z) : Tick :=
  {| now := t; q_frame_has := true; q_track_has := true;
     tracks := map tracked ids; crop_fails := fun _ => false;
     free_bytes := free * MB; is_alive := fun _ => false;
     full_fires := false; interrupt := false |}.

(** An iteration in which the queues are empty. *)
Definition idle_tick (t : Z) (fires : bool) : Tick :=
  {| now := t; q_frame_has := false; q_track_has := false;
     tracks := []; crop_fails := fun _ => false;
     free_bytes := 500 * MB; is_alive := fun _ => false;
     full_fires := fires; interrupt := false |}.

(** As [sample_tick], but the worker threads are still running at the end
    of the iteration. *)
Definition busy_tick (t : Z) (ids : list Z) (free : Z) : Tick :=
  {| now := t; q_frame_has := true; q_track_has := true;
     tracks := map tracked ids; crop_fails := fun _ => false;
     free_bytes := free * MB; is_alive := fun _ => true;
     full_fires := false; interrupt := false |}.

Definition startup_with (free : Z) : Startup :=
  {| start_free_bytes := free * MB; shutdown_returns := true;
     num_labels := 1; start_time := 0 |}.

(** ** Reasoning about the monad *)

Lemma bind_Ok {A B} (m : M A) (k : A -> M B) s a s1 t1 :
  m s = (Ok a, s1, t1) ->
  bind m k s = (result (k a s1), final (k a s1), t1 ++ trace (k a s1)).
Proof.
  intros H. unfold bind, result, final, trace. rewrite H.
  destruct (k a s1) as [[r s2] t2]. reflexivity.
Qed.

Lemma bind_Raise {A B} (m : M A) (k : A -> M B) s x s1 t1 :
  m s = (Raise x, s1, t1) -> bind m k s = (Raise x, s1, t1).
Proof. intros H. unfold bind. rewrite H. reflexivity. Qed.

Lemma surj {A} (r : Res A * State * list Event) :
  r = (result r, final r, trace r).
Proof. destruct r as [[? ?] ?]. reflexivity. Qed.

Section Invariant.

Variable I : list Event -> State -> Prop.

Lemma inv_ret {A} (a : A) : inv I (ret a).
Proof. intros t s H. cbn. rewrite app_nil_r. exact H. Qed.

Lemma inv_get : inv I get.
Proof. intros t s H. cbn. rewrite app_nil_r. exact H. Qed.

Lemma inv_raise {A} (x : Exn) : inv I (@raise A x).
Proof. intros t s H. cbn. rewrite app_nil_r. exact H. Qed.

Lemma inv_bind {A B} (m : M A) (k : A -> M B) :
  inv I m -> (forall a, inv I (k a)) -> inv I (bind m k).
Proof.
  intros Hm Hk t s H. specialize (Hm t s H).
  destruct (m s) as [[[a|x] s1] t1] eqn:E.
  - rewrite (bind_Ok m k s a s1 t1 E). cbn. rewrite app_assoc.
    apply Hk. exact Hm.
  - rewrite (bind_Raise m k s x s1 t1 E). exact Hm.
Qed.

(** [s <- get ;; k s]: the continuation is only ever run on the state at
    hand. *)
Lemma inv_get_bind {B} (k : State -> M B) :
  (forall t s, I t s -> I (t ++ trace (k s s)) (final (k s s))) ->
  inv I (bind get k).
Proof.
  intros Hk t s H. rewrite (bind_Ok get k s s s []) by reflexivity.
  cbn. apply Hk. exact H.
Qed.

Lemma inv_emit (e : Event) :
  (forall t s, I t s -> I (t ++ [e]) s) -> inv I (emit e).
Proof. intros He t s H. cbn. apply He. exact H. Qed.

Lemma inv_modify (f : State -> State) :
  (forall t s, I t s -> I t (f s)) -> inv I (modify f).
Proof. intros Hf t s H. cbn. rewrite app_nil_r. apply Hf. exact H. Qed.

Lemma inv_when (b : bool) (m : M unit) : inv I m -> inv I (when b m).
Proof. intros Hm. destruct b; cbn; [exact Hm | apply inv_ret]. Qed.

Lemma inv_if {A} (b : bool) (m1 m2 : M A) : inv I m1 -> inv I m2 -> inv I (if b then m1 else m2).
Proof. destruct b; auto. Qed.

End Invariant.

(** ** The table and its keys *)

Lemma keys_dict_set_present d k v :
  In k (keys d) -> keys (dict_set d k v) = keys d.
Proof.
  induction d as [|[k' v'] r IH]; cbn; intros H.
  - contradiction.
  - destruct (Z.eqb_spec k' k) as [E|E]; cbn.
    + reflexivity.
    + f_equal. apply IH. destruct H as [H|H]; [contradiction | exact H].
Qed.

Lemma keys_dict_del_incl d k : incl (keys (dict_del d k)) (keys d).
Proof.
  induction d as [|[k' v'] r IH]; cbn.
  - apply incl_refl.
  - destruct (Z.eqb_spec k' k); cbn.
    + apply incl_tl, incl_refl.
    + intros x [Hx|Hx]; [left; exact Hx | right; apply IH; exact Hx].
Qed.

(** The iteration never adds a key: it rewrites values of keys it was
    handed by the table itself, or deletes one of them. *)
Lemma lost_frames_iter_keys current ks :
  forall s, incl ks (keys (lost_frames s)) ->
    incl (keys (lost_frames (final (lost_frames_iter current ks s))))
         (keys (lost_frames s)).
Proof.
  induction ks as [|k rest IH]; intros s Hks.
  - cbn. apply incl_refl.
  - assert (Hk : In k (keys (lost_frames s))) by (apply Hks; left; reflexivity).
    assert (Hrest : incl rest (keys (lost_frames s)))
      by (intros x Hx; apply Hks; right; exact Hx).
    cbn [lost_frames_iter]. destruct (mem k current).
    + erewrite bind_Ok by reflexivity. cbn [final fst snd].
      set (s1 := set_lost_frames _ s).
      assert (E : keys (lost_frames s1) = keys (lost_frames s))
        by (apply keys_dict_set_present; exact Hk).
      rewrite <- E. apply IH. rewrite E. exact Hrest.
    + erewrite bind_Ok by reflexivity. cbn [final fst snd].
      set (s1 := set_lost_frames _ s).
      assert (E : keys (lost_frames s1) = keys (lost_frames s))
        by (apply keys_dict_set_present; exact Hk).
      erewrite bind_Ok by reflexivity. cbn [final fst snd].
      destruct (default_get (lost_frames s1) k >=? LOST_FRAMES_TILL_REMOVAL).
      * cbn. rewrite <- E. apply keys_dict_del_incl.
      * rewrite <- E. apply IH. rewrite E. exact Hrest.
Qed.

Lemma lost_frames_update_keys current s :
  incl (keys (lost_frames (final (lost_frames_update current s))))
       (keys (lost_frames s)).
Proof.
  unfold lost_frames_update.
  erewrite bind_Ok by reflexivity. cbn [final fst snd].
  erewrite bind_Ok by reflexivity. cbn [final fst snd].
  apply lost_frames_iter_keys, incl_refl.
Qed.

Ltac inv_structure :=
  repeat lazymatch goal with
    | |- inv _ (bind _ _) => apply inv_bind; [ | intro ]
    | |- inv _ (ret _) => apply inv_ret
    | |- inv _ (raise _) => apply inv_raise
    | |- inv _ get => apply inv_get
    | |- inv _ (when _ _) => apply inv_when
    | |- inv _ (if _ then _ else _) => apply inv_if
    | |- inv _ (let _ := _ in _) => cbv zeta
    | |- inv _ (match ?x with _ => _ end) => destruct x
    end.

(** ** Invariants through the parts of the script

    Each lemma lists what the invariant has to survive. *)
Section Components.

Variable args : Args.
Variable I : list Event -> State -> Prop.

Lemma inv_try_finally (body : M bool) (fin : M unit) :
  inv I body -> inv I fin -> inv I (try_finally body fin).
Proof.
  intros Hb Hf t s H. specialize (Hb t s H). unfold try_finally.
  destruct (body s) as [[r s1] t1]. cbn [trace final fst snd] in Hb.
  specialize (Hf _ _ Hb).
  destruct r as [[|]|x]; [ | exact Hb | ];
    destruct (fin s1) as [[[[]|y] s2] t2]; cbn [trace final fst snd] in *;
    rewrite app_assoc; exact Hf.
Qed.

Lemma inv_for_tracks (body : nat -> Tracklet -> M unit) l :
  forall i, (forall j tracklet, In tracklet l -> inv I (body j tracklet)) ->
    inv I (for_tracks body i l).
Proof.
  induction l as [|x r IH]; intros i H; cbn [for_tracks].
  - apply inv_ret.
  - apply inv_bind.
    + apply H. left. reflexivity.
    + intros _. apply IH. intros j y Hy. apply H. right. exact Hy.
Qed.

Lemma inv_tracklet_body e frame_hq frame_hq_copy tracks_ref i tracklet :
  inv I (emit (EvSendAeCtrl (id tracklet))) ->
  inv I (save_crop_metadata e i frame_hq (id tracklet)) ->
  inv I (start_thread (fun th => EvStartFull th frame_hq)) ->
  (forall c, frame_hq_copy = Some c ->
     inv I (start_thread (fun th => EvStartOverlay th c (id tracklet) tracks_ref))) ->
  inv I (lost_frames_update (map id (tracks e))) ->
  inv I (tracklet_body args e frame_hq frame_hq_copy tracks_ref i tracklet).
Proof.
  intros Hae Hcrop Hfull Hov Hup. unfold tracklet_body, tracklet_save.
  inv_structure; try assumption.
  apply Hov. reflexivity.
Qed.

Hypothesis I_emit : forall e, plain e = true -> inv I (emit e).
Hypothesis I_emit_loop : forall e, plain_loop e = true -> inv I (emit e).
Hypothesis I_check : forall n f b, inv I (emit (EvCheckStop n f b)).
Hypothesis I_disk : forall z, inv I (modify (set_disk_free z)).
Hypothesis I_ref : forall n, inv I (modify (set_next_ref n)).
Hypothesis I_job_add : inv I (modify (set_full_job (Some None))).
Hypothesis I_job_mod : forall f, inv I (modify (set_full_job (Some (Some f)))).
Hypothesis I_threads0 : inv I (modify (set_threads [])).
Hypothesis I_crop : forall e i f k, inv I (save_crop_metadata e i f k).
Hypothesis I_copy : forall a b, inv I (emit (EvCopyFrame a b)).
Hypothesis I_full : forall f, inv I (start_thread (fun th => EvStartFull th f)).
Hypothesis I_overlay :
  forall c k tr, inv I (start_thread (fun th => EvStartOverlay th c k tr)).
Hypothesis I_update : forall cur, inv I (lost_frames_update cur).
Hypothesis I_prune : forall e, inv I (prune e).
Hypothesis I_fire : forall e, inv I (fire e).

Lemma inv_alloc : inv I alloc.
Proof. unfold alloc. inv_structure. apply I_ref. Qed.

Lemma inv_plain e : plain e = true -> inv I (emit e).
Proof. exact (I_emit e). Qed.

Lemma inv_plain_loop e : plain_loop e = true -> inv I (emit e).
Proof. exact (I_emit_loop e). Qed.

Local Hint Resolve inv_alloc inv_plain inv_plain_loop : core.

Lemma inv_process_sample e : inv I (process_sample args e).
Proof.
  unfold process_sample, modify_job. inv_structure; auto.
  apply inv_for_tracks. intros j x _. apply inv_tracklet_body; auto.
Qed.

Lemma inv_sleep e : inv I (sleep e).
Proof. unfold sleep. inv_structure; auto. Qed.

Lemma inv_probe_disk e : inv I (probe_disk e).
Proof. unfold probe_disk. inv_structure; auto. Qed.

Lemma inv_loop_body e :
  inv I (process_sample args e) -> inv I (loop_body args e).
Proof.
  intros H. unfold loop_body. inv_structure; auto using inv_probe_disk, inv_sleep.
Qed.

Lemma inv_while_loop start ticks :
  (forall e, In e ticks -> inv I (process_sample args e)) ->
  inv I (while_loop args start ticks).
Proof.
  induction ticks as [|e rest IH]; intros H; cbn [while_loop].
  - apply inv_ret.
  - inv_structure; auto.
    + apply inv_loop_body. apply H. left. reflexivity.
    + apply IH. intros e' He'. apply H. right. exact He'.
Qed.

Lemma inv_try_block start ticks :
  (forall e, In e ticks -> inv I (process_sample args e)) ->
  inv I (try_block args start ticks).
Proof.
  intros H. unfold try_block. inv_structure; auto.
  apply inv_while_loop. exact H.
Qed.

Lemma inv_join_all l : inv I (join_all l).
Proof. induction l as [|th r IH]; cbn [join_all]; inv_structure; auto. Qed.

Lemma inv_finally_block : inv I (finally_block args).
Proof. unfold finally_block. inv_structure; auto using inv_join_all. Qed.

Lemma inv_disk_check su : inv I (disk_check su).
Proof. unfold disk_check. inv_structure; auto. Qed.

Lemma inv_mkdir_crops n : inv I (mkdir_crops n).
Proof. induction n as [|k IH]; cbn [mkdir_crops]; inv_structure; auto. Qed.

Lemma inv_open_session su : inv I (open_session args su).
Proof. unfold open_session. inv_structure; auto using inv_mkdir_crops. Qed.

Lemma inv_setup : inv I (setup args).
Proof. unfold setup. inv_structure; auto. Qed.

Lemma inv_script su ticks :
  (forall e, In e ticks -> inv I (process_sample args e)) ->
  inv I (script args su ticks).
Proof.
  intros H. unfold script.
  inv_structure; auto using inv_disk_check, inv_open_session, inv_setup.
  apply inv_try_finally.
  - apply inv_try_block. exact H.
  - apply inv_finally_block.
Qed.

End Components.

(** ** Invariants of the shape [both P Q] *)
Section StateAndEvents.

Variable P : State -> Prop.
Variable Q : Event -> Prop.

Lemma both_emit e : Q e -> inv (both P Q) (emit e).
Proof.
  intros He. apply inv_emit. intros t s [Hs Ht]. split; [exact Hs|].
  apply Forall_app. split; [exact Ht | constructor; [exact He | constructor]].
Qed.

Lemma both_modify f : (forall s, P s -> P (f s)) -> inv (both P Q) (modify f).
Proof.
  intros Hf. apply inv_modify. intros t s [Hs Ht]. split; [apply Hf; exact Hs | exact Ht].
Qed.

Lemma both_start_thread ev :
  (forall th, Q (ev th)) ->
  (forall s n, P s -> P (set_next_thread n s)) ->
  (forall s l, P s -> P (set_threads l s)) ->
  inv (both P Q) (start_thread ev).
Proof.
  intros Hev Hn Hl. unfold start_thread. inv_structure.
  - apply both_modify. intros s Hs. apply Hn. exact Hs.
  - apply both_emit. apply Hev.
  - apply both_modify. intros s Hs. apply Hl. exact Hs.
Qed.

Lemma both_save_crop e i f k :
  (forall ok, Q (EvSaveCrop f k ok)) -> inv (both P Q) (save_crop_metadata e i f k).
Proof.
  intros H. unfold save_crop_metadata. inv_structure; apply both_emit; apply H.
Qed.

Lemma both_prune e :
  (forall kept, Q (EvPrune kept)) ->
  (forall s l, P s -> P (set_threads l s)) ->
  inv (both P Q) (prune e).
Proof.
  intros Hq Hl. unfold prune. inv_structure.
  - apply both_modify. intros s Hs. apply Hl. exact Hs.
  - apply both_emit. apply Hq.
Qed.

End StateAndEvents.

(** *** The table stays empty and nothing is sent *)

Lemma empty_table_update current :
  inv (both (fun s => lost_frames s = []) (fun e => is_send e = false))
      (lost_frames_update current).
Proof.
  unfold lost_frames_update. apply inv_bind.
  - apply both_emit. reflexivity.
  - intros _. apply inv_get_bind. intros t s [Hs Ht].
    rewrite Hs. cbn. rewrite app_nil_r. split; assumption.
Qed.

Ltac both_parts upd :=
  intros;
  first
    [ solve [ apply upd; intros; reflexivity ]
    | apply both_modify; intros ? Hs; exact Hs
    | apply both_start_thread; intros; first [ reflexivity | assumption ]
    | apply both_save_crop; reflexivity
    | apply both_prune; intros; first [ reflexivity | assumption ]
    | apply both_emit;
      first [ reflexivity
            | match goal with
              | H : plain ?e = true |- _ =>
                  destruct e as [[]| | | | | | | | | | | | | | | | | | | | | | | |];
                  first [ discriminate H | reflexivity ]
              | H : plain_loop ?e = true |- _ =>
                  destruct e; first [ discriminate H | reflexivity ]
              end ]
    | unfold fire; inv_structure; apply both_emit; reflexivity ].

Lemma empty_table_script args su ticks :
  inv (both (fun s => lost_frames s = []) (fun e => is_send e = false))
      (script args su ticks).
Proof.
  apply inv_script; [ .. | intros e _; apply inv_process_sample ];
    both_parts empty_table_update.
Qed.

(** ** The lost-frame table *)

(** C1 (the code departs from the claim).  The tracker is fed the active
    sets {1,2}, {1}, {1}, {1}: track 2 was seen and is then absent for three
    consecutive calls, so the claim has it reported.  The script never
    enters an ID into [lost_frames], so none of the four updates has a key
    to look at: nothing is reported, neither by the updates on their own nor
    by the recording loop run on these four samples. *)
Theorem C1_seen_then_absent_track_is_not_reported :
  feed [[1; 2]; [1]; [1]; [1]] init
    = (Ok tt, init,
       [EvLostUpdate [1; 2]; EvLostUpdate [1]; EvLostUpdate [1]; EvLostUpdate [1]])
  /\ (let r := run default_args (startup_with 500)
                  [sample_tick 0 [1; 2] 500; sample_tick 1000 [1] 500;
                   sample_tick 2000 [1] 500; sample_tick 3000 [1] 500;
                   sample_tick 120000 [] 500] in
      result r = Ok true /\ filter is_send (trace r) = []
      /\ lost_frames (final r) = []).
Proof. split; [ reflexivity | repeat split; vm_compute; reflexivity ]. Qed.

(** What the update does once the table does hold a lost track (a state the
    script itself never reaches): the track is reported and deleted, and the
    deletion makes the iteration over the table raise. *)
Example update_on_populated_table :
  lost_frames_update [1]
    (set_lost_frames [(1, 2); (2, 2); (3, 0)] init)
  = (Raise RuntimeError, set_lost_frames [(1, 0); (3, 0)] init,
     [EvLostUpdate [1]; EvPrintRemoving 2; EvSendTrackData 2]).
Proof. reflexivity. Qed.

(** C2.  No run of lines 340-352 adds a key to [lost_frames], whatever the
    table holds; and in every execution of the script, on every prefix of
    the iterations of the loop, the table is empty and [send_track_data] has
    not been called. *)
Theorem C2_lost_frames_never_acquires_an_entry :
  (forall current_track_ids s,
      incl (keys (lost_frames (final (lost_frames_update current_track_ids s))))
           (keys (lost_frames s)))
  /\ (forall args su ticks,
      lost_frames (final (run args su ticks)) = []
      /\ Forall (fun e => is_send e = false) (trace (run args su ticks))).
Proof.
  split.
  - apply lost_frames_update_keys.
  - intros args su ticks.
    destruct (empty_table_script args su ticks [] init) as [Hs Ht].
    + split; [ reflexivity | constructor ].
    + split; [ exact Hs | exact Ht ].
Qed.

(** C3 (the code departs from the claim).  A sample with two TRACKED
    tracklets: lines 340-352 sit inside [for tracklet in tracks], so the
    update runs once per tracklet, the first time before the crop of the
    second tracklet is saved.  With an empty tracklet list it does not run
    at all. *)
Theorem C3_update_runs_once_per_tracklet :
  trace (process_sample default_args (sample_tick 0 [1; 2] 500) init)
    = [EvSaveCrop 0%nat 1 true; EvLostUpdate [1; 2];
       EvSaveCrop 0%nat 2 true; EvLostUpdate [1; 2]]
  /\ trace (process_sample default_args (sample_tick 0 [] 500) init) = [].
Proof. split; reflexivity. Qed.

(** ** Traces of composed computations *)

Lemma trace_bind {A B} (m : M A) (k : A -> M B) s :
  trace (bind m k s)
  = trace (m s) ++ match result (m s) with
                   | Ok a => trace (k a (final (m s)))
                   | Raise _ => []
                   end.
Proof.
  unfold bind, trace, result, final.
  destruct (m s) as [[[a|x] s1] t1]; cbn.
  - destruct (k a s1) as [[r s2] t2]. reflexivity.
  - rewrite app_nil_r. reflexivity.
Qed.

Lemma count_app p t1 t2 : count p (t1 ++ t2) = (count p t1 + count p t2)%nat.
Proof. unfold count. rewrite filter_app, length_app. reflexivity. Qed.

Lemma count_none p t : Forall (fun e => p e = false) t -> count p t = O.
Proof.
  unfold count. induction 1 as [|e t He _ IH]; cbn.
  - reflexivity.
  - rewrite He. exact IH.
Qed.

Lemma quiet_count p {A} (m : M A) s : quiet p m -> count p (trace (m s)) = O.
Proof.
  intros H. apply count_none.
  destruct (H [] s) as [_ Ht]; [ split; [ exact Logic.I | constructor ] | exact Ht ].
Qed.

Lemma both_iter P Q current ks :
  (forall s d, P s -> P (set_lost_frames d s)) ->
  (forall k, Q (EvPrintRemoving k)) -> (forall k, Q (EvSendTrackData k)) ->
  inv (both P Q) (lost_frames_iter current ks).
Proof.
  intros Hd Hp Hs. induction ks as [|k rest IH]; cbn [lost_frames_iter].
  - apply inv_ret.
  - inv_structure; try exact IH;
      first [ apply both_modify; intros; apply Hd; assumption
            | apply both_emit; auto ].
Qed.

Lemma both_update P Q current :
  (forall s d, P s -> P (set_lost_frames d s)) ->
  (forall l, Q (EvLostUpdate l)) ->
  (forall k, Q (EvPrintRemoving k)) -> (forall k, Q (EvSendTrackData k)) ->
  inv (both P Q) (lost_frames_update current).
Proof.
  intros Hd Hl Hp Hs. unfold lost_frames_update. inv_structure.
  - apply both_emit. apply Hl.
  - apply both_iter; assumption.
Qed.

Lemma update_quiet p current :
  (forall l, p (EvLostUpdate l) = false) ->
  (forall k, p (EvPrintRemoving k) = false) ->
  (forall k, p (EvSendTrackData k) = false) ->
  quiet p (lost_frames_update current).
Proof. intros. apply both_update; auto. Qed.

(** ** Dispatch of the worker threads (lines 324-338) *)

Lemma tracklet_full_count args e frame_hq cp tr i tracklet s :
  count is_start_full (trace (tracklet_body args e frame_hq cp tr i tracklet s))
  = if is_TRACKED (status tracklet) && negb (crop_fails e i)
       && is_det (save_full_frames args) && is_last (length (tracks e)) i
    then 1%nat else 0%nat.
Proof.
  unfold tracklet_body, tracklet_save, save_crop_metadata.
  rewrite trace_bind, count_app.
  match goal with |- (_ + ?c)%nat = _ => replace c with 0%nat end.
  - destruct (status tracklet), (bbox_ae_region args), (crop_fails e i),
      (save_full_frames args) as [[]|], (is_last (length (tracks e)) i),
      (save_overlay_frames args), cp; reflexivity.
  - match goal with |- _ = count _ (match ?r with _ => _ end) => destruct r end;
      [ symmetry; apply quiet_count, update_quiet; reflexivity | reflexivity ].
Qed.

Lemma tracklet_overlay_count args e frame_hq cp tr i tracklet s :
  count is_start_overlay (trace (tracklet_body args e frame_hq cp tr i tracklet s))
  = if is_TRACKED (status tracklet) && negb (crop_fails e i)
       && save_overlay_frames args && is_some cp
    then 1%nat else 0%nat.
Proof.
  unfold tracklet_body, tracklet_save, save_crop_metadata.
  rewrite trace_bind, count_app.
  match goal with |- (_ + ?c)%nat = _ => replace c with 0%nat end.
  - destruct (status tracklet), (bbox_ae_region args), (crop_fails e i),
      (save_full_frames args) as [[]|], (is_last (length (tracks e)) i),
      (save_overlay_frames args), cp; reflexivity.
  - match goal with |- _ = count _ (match ?r with _ => _ end) => destruct r end;
      [ symmetry; apply quiet_count, update_quiet; reflexivity | reflexivity ].
Qed.

Lemma for_tracks_full_count args e frame_hq cp tr l :
  forall i s, (i + length l = length (tracks e))%nat ->
    (count is_start_full
       (trace (for_tracks (tracklet_body args e frame_hq cp tr) i l s)) <= 1)%nat.
Proof.
  induction l as [|x rest IH]; intros i s Hn; cbn [for_tracks].
  - cbn. lia.
  - rewrite trace_bind, count_app, tracklet_full_count.
    destruct rest as [|y rest'].
    + match goal with |- (_ + count _ (match ?r with _ => _ end) <= _)%nat =>
        destruct r end; cbn [for_tracks ret trace snd count filter length];
      match goal with |- ((if ?b then _ else _) + _ <= _)%nat => destruct b end; lia.
    + assert (E : is_last (length (tracks e)) i = false).
      { unfold is_last. apply Nat.eqb_neq. cbn [length] in Hn. lia. }
      rewrite E, andb_false_r.
      match goal with |- (_ + count _ (match ?r with _ => _ end) <= _)%nat =>
        destruct r end.
      * cbn [Nat.add]. apply IH. cbn [length] in *. lia.
      * cbn. lia.
Qed.

Lemma process_sample_unfold args e s :
  q_frame_has e && q_track_has e = true ->
  process_sample args e s
  = let r := for_tracks (tracklet_body args e (frame_hq_of s)
                           (frame_hq_copy_of args s) (tracks_of s))
                        0 (tracks e) (at_for_loop args s) in
    (result r, final r, before_for_loop args s ++ trace r).
Proof.
  intros H. unfold process_sample, modify_job, alloc, frame_hq_copy_of,
    at_for_loop, before_for_loop, frame_hq_of, tracks_of.
  rewrite H.
  destruct (save_full_frames args) as [[]|], (save_overlay_frames args);
    repeat (erewrite bind_Ok by reflexivity; cbn [result final trace fst snd]);
    reflexivity.
Qed.

Lemma process_sample_idle args e s :
  q_frame_has e && q_track_has e = false ->
  process_sample args e s = (Ok tt, s, []).
Proof. intros H. unfold process_sample. rewrite H. reflexivity. Qed.





(** ** Which frame object a job is handed (lines 291-300, 324-338) *)






(** ** The script, part by part *)

Lemma result_bind {A B} (m : M A) (k : A -> M B) s :
  result (bind m k s)
  = match result (m s) with
    | Ok a => result (k a (final (m s)))
    | Raise x => Raise x
    end.
Proof.
  unfold bind, result, final.
  destruct (m s) as [[[a|x] s1] t1]; cbn; [ | reflexivity ].
  destruct (k a s1) as [[r s2] t2]. reflexivity.
Qed.

Lemma final_bind {A B} (m : M A) (k : A -> M B) s :
  final (bind m k s)
  = match result (m s) with
    | Ok a => final (k a (final (m s)))
    | Raise x => final (m s)
    end.
Proof.
  unfold bind, result, final.
  destruct (m s) as [[[a|x] s1] t1]; cbn; [ | reflexivity ].
  destruct (k a s1) as [[r s2] t2]. reflexivity.
Qed.

Lemma loop_body_unfold args e s :
  loop_body args e s
  = let p := process_sample args e s in
    match result p with
    | Ok _ =>
        (if interrupt e then Raise KeyboardInterrupt else Ok tt,
         after_sleep e (final p),
         trace p ++ end_of_iteration e (final p))
    | Raise x => (Raise x, final p, trace p)
    end.
Proof.
  unfold loop_body. cbv zeta.
  destruct (process_sample args e s) as [[[[]|x] s1] t1] eqn:E.
  - erewrite bind_Ok by exact E. cbn [result final trace fst snd].
    unfold probe_disk, prune, sleep, fire, after_sleep, end_of_iteration.
    destruct (full_fires e), (full_job s1) as [f|] eqn:F, (interrupt e);
      unfold bind, get, emit, modify, ret, raise, when; cbn; rewrite ?F; reflexivity.
  - erewrite bind_Raise by exact E. reflexivity.
Qed.

Lemma while_loop_cons args start e rest s :
  while_loop args start (e :: rest) s
  = let go_on := loop_cond args start (now e) (disk_free s) in
    let check := EvCheckStop (now e) (disk_free s) go_on in
    if go_on then
      let b := loop_body args e s in
      match result b with
      | Ok _ =>
          let r := while_loop args start rest (final b) in
          (result r, final r, check :: trace b ++ trace r)
      | Raise x => (Raise x, final b, check :: trace b)
      end
    else (Ok true, s, [check]).
Proof.
  cbn [while_loop]. cbv zeta.
  erewrite bind_Ok by reflexivity. cbn [result final trace fst snd app].
  erewrite bind_Ok by reflexivity. cbn [result final trace fst snd app].
  destruct (loop_cond args start (now e) (disk_free s)); [ | reflexivity ].
  destruct (loop_body args e s) as [[[[]|x] s1] t1] eqn:E.
  - erewrite bind_Ok by exact E. reflexivity.
  - erewrite bind_Raise by exact E. reflexivity.
Qed.

(** Running the loop on [pre ++ rest] is running it on [pre] and, if it is
    still going then, on [rest] from there. *)
Lemma while_loop_app args start pre rest :
  forall s,
    while_loop args start (pre ++ rest) s
    = let a := while_loop args start pre s in
      match result a with
      | Ok false =>
          let r := while_loop args start rest (final a) in
          (result r, final r, trace a ++ trace r)
      | _ => a
      end.
Proof.
  induction pre as [|e pre IH]; intros s.
  - cbn. apply surj.
  - cbn [app]. rewrite !while_loop_cons. cbv zeta.
    destruct (loop_cond args start (now e) (disk_free s)); [ | reflexivity ].
    destruct (result (loop_body args e s)) as [[]|x]; [ | reflexivity ].
    rewrite IH. cbv zeta. cbn [result final trace fst snd].
    destruct (result (while_loop args start pre (final (loop_body args e s))))
      as [[|]|y] eqn:R; cbn [result final trace fst snd].
    + rewrite <- R. symmetry.
      rewrite (surj (while_loop args start pre (final (loop_body args e s)))) at 1.
      reflexivity.
    + rewrite app_assoc. reflexivity.
    + rewrite <- R. symmetry.
      rewrite (surj (while_loop args start pre (final (loop_body args e s)))) at 1.
      reflexivity.
Qed.

Lemma disk_check_run su s :
  disk_check su s
  = (if goes_on su then Ok tt else Raise CalledProcessError,
     set_disk_free (free_mb (start_free_bytes su)) s,
     disk_check_events su).
Proof.
  unfold disk_check, goes_on, disk_check_events, low_disk.
  unfold bind, get, emit, modify, ret, raise, when. cbn.
  destruct (free_mb (start_free_bytes su) <? MIN_DISKSPACE),
    (shutdown_returns su); reflexivity.
Qed.

Lemma mkdir_crops_run n s :
  mkdir_crops n s = (Ok tt, s, map (fun k => EvMkdir (DirCrop k)) (seq 0 n)).
Proof.
  induction n as [|k IH]; cbn [mkdir_crops].
  - reflexivity.
  - erewrite bind_Ok by exact IH. cbn [result final trace fst snd emit].
    rewrite seq_S, map_app. reflexivity.
Qed.

Lemma open_session_run args su s :
  open_session args su s = (Ok tt, s, open_session_events args su).
Proof.
  unfold open_session, open_session_events.
  destruct (is_some (save_full_frames args)), (save_overlay_frames args);
    repeat (erewrite bind_Ok by reflexivity; cbn [result final trace fst snd]);
    rewrite mkdir_crops_run; reflexivity.
Qed.

Lemma setup_run args s :
  setup args s
  = (Ok tt,
     if is_freq (save_full_frames args) then set_full_job (Some None) s else s,
     setup_events args).
Proof.
  unfold setup, setup_events.
  destruct (save_logs args), (is_freq (save_full_frames args)),
    (is_some (af_range args)); reflexivity.
Qed.

Lemma join_all_run l s : join_all l s = (Ok tt, s, map EvJoin l).
Proof.
  induction l as [|th r IH]; cbn [join_all map].
  - reflexivity.
  - erewrite bind_Ok by reflexivity. rewrite IH. reflexivity.
Qed.

Lemma finally_block_run args s :
  finally_block args s = (Ok tt, s, finally_events args (threads s)).
Proof.
  unfold finally_block, finally_events.
  destruct (has_scheduler args), (zip_data args);
    repeat (erewrite bind_Ok by first [ reflexivity | apply join_all_run ];
            cbn [result final trace fst snd]);
    cbn; rewrite ?app_nil_r; reflexivity.
Qed.

Lemma try_block_unfold args start ticks s :
  try_block args start ticks s
  = let w := while_loop args start ticks s in
    match result w with
    | Ok true => (Ok true, final w, trace w ++ [EvLog LogRecFinished])
    | Ok false => (Ok false, final w, trace w)
    | Raise x => (Raise x, final w, trace w)
    end.
Proof.
  unfold try_block. cbv zeta.
  destruct (while_loop args start ticks s) as [[[[|]|x] s1] t1] eqn:E.
  - erewrite bind_Ok by exact E. reflexivity.
  - erewrite bind_Ok by exact E. cbn. rewrite app_nil_r. reflexivity.
  - erewrite bind_Raise by exact E. reflexivity.
Qed.

(** The whole script in terms of its loop. *)
Lemma run_unfold args su ticks :
  run args su ticks
  = if goes_on su then
      let w := while_loop args (start_time su) ticks (loop_start args su) in
      match result w with
      | Ok false => (Ok false, final w, pre_loop_events args su ++ trace w)
      | Ok true =>
          (Ok true, final w,
           pre_loop_events args su ++ trace w ++ [EvLog LogRecFinished]
             ++ finally_events args (threads (final w)))
      | Raise x =>
          (Raise x, final w,
           pre_loop_events args su ++ trace w
             ++ finally_events args (threads (final w)))
      end
    else
      (Raise CalledProcessError,
       set_disk_free (free_mb (start_free_bytes su)) init,
       disk_check_events su).
Proof.
  unfold run, script, pre_loop_events.
  destruct (goes_on su) eqn:G.
  - erewrite bind_Ok by (rewrite disk_check_run, G; reflexivity).
    cbn [result final trace fst snd].
    erewrite bind_Ok by apply open_session_run.
    cbn [result final trace fst snd].
    erewrite bind_Ok by apply setup_run.
    cbn [result final trace fst snd].
    erewrite bind_Ok by reflexivity.
    cbn [result final trace fst snd app].
    replace (set_threads [] _) with (loop_start args su)
      by (unfold loop_start; destruct (is_freq (save_full_frames args)); reflexivity).
    unfold try_finally. rewrite try_block_unfold. cbv zeta.
    destruct (result (while_loop args (start_time su) ticks (loop_start args su)))
      as [[|]|x]; rewrite ?finally_block_run;
      cbn [result final trace fst snd]; rewrite <- ?app_assoc; reflexivity.
  - erewrite bind_Raise by (rewrite disk_check_run, G; reflexivity).
    reflexivity.
Qed.

(** ** Stop conditions (lines 138-142, 288, 354-361) *)

Lemma loop_cond_iff args start now_ free :
  loop_cond args start now_ free = true
  <-> now_ - start < seconds (REC_TIME args) /\ free > MIN_DISKSPACE.
Proof.
  unfold loop_cond. rewrite andb_true_iff, Z.ltb_lt, Z.gtb_gt. lia.
Qed.

(** The boundary: with exactly [MIN_DISKSPACE] MB free the start-up check
    (line 140, [<]) lets the script go on and the loop (line 288, [>])
    does not run. *)
Example loop_does_not_run_at_the_floor :
  low_disk (startup_with 100) = false
  /\ loop_cond default_args 0 0 100 = false.
Proof. split; reflexivity. Qed.

Lemma process_sample_no_check args e : quiet is_check (process_sample args e).
Proof. apply inv_process_sample; both_parts (update_quiet is_check). Qed.

Lemma loop_body_no_check args e s :
  count is_check (trace (loop_body args e s)) = 0%nat.
Proof.
  rewrite loop_body_unfold. cbv zeta.
  pose proof (quiet_count is_check _ s (process_sample_no_check args e)) as Hp.
  destruct (result (process_sample args e s)); cbn [trace snd].
  - rewrite count_app, Hp. unfold end_of_iteration.
    destruct (full_fires e), (full_job (final (process_sample args e s))); reflexivity.
  - exact Hp.
Qed.

(** C6, as the claim states it, fails: a run of one iteration.  The stop
    condition is evaluated in the [while] header: before the sample is
    processed (clock 119500) and again after the sleep (clock 120500, where
    the loop ends).  Nothing evaluates it between the save of the crop and
    the sleep. *)
Lemma C6_condition_is_evaluated_after_the_sleep :
  trace (run default_args (startup_with 500)
           [sample_tick 119500 [1] 500; sample_tick 120500 [1] 500])
  = [EvWriteRecId; EvMkdir DirSession; EvMkdir (DirCrop 0); EvLog LogRecStart;
     EvCheckStop 119500 500 true;
     EvSaveCrop 0%nat 1 true; EvLostUpdate [1];
     EvProbeDisk 500; EvPrune []; EvSleep 1;
     EvCheckStop 120500 500 false;
     EvLog LogRecFinished; EvRecordLog].
Proof. vm_compute. reflexivity. Qed.

(** C6, amended.  The loop goes on whenever the time since the start is
    below the recording time and more than the floor is free, and ends
    whenever the recording time is reached or less than the floor is free.
    The condition is evaluated in the loop header: once before every
    iteration and not within one; it reads the clock then, and the disk
    figure that the iteration before it probed after its sample and before
    its sleep. *)
Theorem C6_stop_condition_in_the_loop_header args start :
  (forall now_ free,
      now_ - start < seconds (REC_TIME args) -> free > MIN_DISKSPACE ->
      loop_cond args start now_ free = true)
  /\ (forall now_ free,
      now_ - start >= seconds (REC_TIME args) \/ free < MIN_DISKSPACE ->
      loop_cond args start now_ free = false)
  /\ (forall e rest s,
      trace (while_loop args start (e :: rest) s)
      = EvCheckStop (now e) (disk_free s) (loop_cond args start (now e) (disk_free s))
        :: (if loop_cond args start (now e) (disk_free s)
            then trace (loop_body args e s)
                 ++ match result (loop_body args e s) with
                    | Ok _ => trace (while_loop args start rest (final (loop_body args e s)))
                    | Raise _ => []
                    end
            else []))
  /\ (forall e s, count is_check (trace (loop_body args e s)) = 0%nat)
  /\ (forall e s,
      result (loop_body args e s) = Ok tt ->
      disk_free (final (loop_body args e s)) = free_mb (free_bytes e)
      /\ trace (loop_body args e s)
         = trace (process_sample args e s)
           ++ end_of_iteration e (final (process_sample args e s))).
Proof.
  repeat split.
  - intros now_ free Ht Hf. apply loop_cond_iff. split; assumption.
  - intros now_ free H. destruct (loop_cond args start now_ free) eqn:E; [ | reflexivity ].
    apply loop_cond_iff in E. lia.
  - intros e rest s. rewrite while_loop_cons. cbv zeta.
    destruct (loop_cond args start (now e) (disk_free s)); [ | reflexivity ].
    destruct (result (loop_body args e s)); cbn [trace snd];
      rewrite ?app_nil_r; reflexivity.
  - intros e s. apply loop_body_no_check.
  - revert H. rewrite loop_body_unfold. cbv zeta.
    destruct (result (process_sample args e s)); [ | discriminate ].
    intros _. reflexivity.
  - revert H. rewrite loop_body_unfold. cbv zeta.
    destruct (result (process_sample args e s)); [ | discriminate ].
    intros _. reflexivity.
Qed.

Lemma C6_stop_condition_in_the_loop_header_witness :
  loop_cond default_args 0 119500 101 = true
  /\ loop_cond default_args 0 120000 500 = false
  /\ disk_free (final (loop_body default_args (sample_tick 0 [1] 99) init)) = 99.
Proof.
  pose proof (C6_stop_condition_in_the_loop_header default_args 0)
    as [Hgo [Hstop [_ [_ Hbody]]]].
  split; [ | split ].
  - apply Hgo; vm_compute; reflexivity.
  - apply Hstop. left. vm_compute. discriminate.
  - apply (Hbody (sample_tick 0 [1] 99) init). reflexivity.
Defined.

(** C7, as the claim states it, fails: 50 MB are free at the start and the
    shutdown command returns.  The script goes on: it writes the recording
    ID, creates the directories of the session and at the end writes the
    record log. *)
Lemma C7_low_disk_still_opens_the_session :
  run default_args (startup_with 50) [sample_tick 0 [1] 50]
  = (Ok true, loop_start default_args (startup_with 50),
     [EvLog (LogLowDisk 50); EvShutdownCmd;
      EvWriteRecId; EvMkdir DirSession; EvMkdir (DirCrop 0); EvLog LogRecStart;
      EvCheckStop 0 50 false; EvLog LogRecFinished; EvRecordLog]).
Proof. vm_compute. reflexivity. Qed.

(** C7, amended.  When the free space found at the start is below the
    floor, the script logs that and calls the shutdown command.  If the
    command fails, the script ends there with its error.  If it returns, the
    script opens the session and sets up the scheduler as usual; the loop
    condition is false the first time it is evaluated, so no iteration runs
    (no sample is read, no crop saved, no thread started); the [finally]
    block then runs with an empty thread list and writes the record log. *)
Theorem C7_low_disk_runs_no_iteration args su e rest :
  free_mb (start_free_bytes su) < MIN_DISKSPACE ->
  (shutdown_returns su = false ->
     run args su (e :: rest)
     = (Raise CalledProcessError,
        set_disk_free (free_mb (start_free_bytes su)) init,
        [EvLog (LogLowDisk (free_mb (start_free_bytes su))); EvShutdownCmd]))
  /\ (shutdown_returns su = true ->
     run args su (e :: rest)
     = (Ok true, loop_start args su,
        [EvLog (LogLowDisk (free_mb (start_free_bytes su))); EvShutdownCmd]
        ++ open_session_events args su ++ setup_events args
        ++ [EvCheckStop (now e) (free_mb (start_free_bytes su)) false;
            EvLog LogRecFinished]
        ++ finally_events args [])).
Proof.
  intros Hlow.
  assert (L : low_disk su = true) by (unfold low_disk; apply Z.ltb_lt; exact Hlow).
  assert (C : loop_cond args (start_time su) (now e) (free_mb (start_free_bytes su)) = false).
  { destruct (loop_cond args (start_time su) (now e)
                (free_mb (start_free_bytes su))) eqn:E; [ | reflexivity ].
    apply loop_cond_iff in E. lia. }
  split; intros Hr; rewrite run_unfold; unfold goes_on; rewrite L, Hr; cbn [negb orb].
  - unfold disk_check_events. rewrite L. reflexivity.
  - rewrite while_loop_cons. cbv zeta. cbn [loop_start disk_free]. rewrite C.
    cbn [result final trace fst snd threads loop_start].
    unfold pre_loop_events, disk_check_events. rewrite L.
    rewrite <- !app_assoc. reflexivity.
Qed.

Lemma C7_low_disk_runs_no_iteration_witness :
  result (run default_args (startup_with 50) [sample_tick 0 [1] 50]) = Ok true.
Proof.
  pose proof (C7_low_disk_runs_no_iteration default_args (startup_with 50)
                (sample_tick 0 [1] 50) []) as [_ H].
  - vm_compute. reflexivity.
  - rewrite H; reflexivity.
Defined.

(** ** Shutdown (lines 283, 324-338, 358, 374-389) *)

Lemma inv_update I current :
  (forall f, inv I (modify (fun s => set_lost_frames (f s) s))) ->
  (forall l, inv I (emit (EvLostUpdate l))) ->
  (forall k, inv I (emit (EvPrintRemoving k))) ->
  (forall k, inv I (emit (EvSendTrackData k))) ->
  inv I (lost_frames_update current).
Proof.
  intros Hm Hl Hp Hs. unfold lost_frames_update. inv_structure; [ apply Hl | ].
  match goal with |- inv _ (lost_frames_iter _ ?ks) => generalize ks end.
  intros ks. induction ks as [|k rest IH]; cbn [lost_frames_iter].
  - apply inv_ret.
  - inv_structure; auto;
      match goal with
      | |- inv _ (modify (fun s => set_lost_frames (@?f s) s)) => apply (Hm f)
      end.
Qed.








Lemma pre_loop_events_setup args su :
  Forall (fun e => is_setup e = true) (pre_loop_events args su).
Proof.
  unfold pre_loop_events, disk_check_events, open_session_events, setup_events.
  repeat (apply Forall_app; split);
    try (apply Forall_forall; intros x Hx; apply in_map_iff in Hx;
         destruct Hx as [k [<- _]]; reflexivity);
    repeat match goal with |- context [if ?b then _ else _] => destruct b end;
    repeat constructor.
Qed.

Lemma pre_loop_events_are (p : Event -> bool) (v : bool) args su :
  (forall e, is_setup e = true -> p e = v) ->
  Forall (fun e => p e = v) (pre_loop_events args su).
Proof.
  intros H. eapply Forall_impl; [ | apply pre_loop_events_setup ].
  intros e He. apply H. exact He.
Qed.

Ltac by_setup :=
  let e := fresh "e" in
  let H := fresh "H" in
  intros e H;
  destruct e as [[]| | | | | | | | | | | | | | | | | | | | | | | |];
  first [ reflexivity | discriminate H ].


(** Enough iterations end the loop: once the clock of an iteration is past
    the recording time, the loop is over. *)
Lemma while_loop_stops args start ticks :
  forall s,
    (exists e, In e ticks /\ now e >= start + seconds (REC_TIME args)) ->
    result (while_loop args start ticks s) <> Ok false.
Proof.
  induction ticks as [|e rest IH]; intros s [x [Hin Hx]].
  - contradiction.
  - rewrite while_loop_cons. cbv zeta.
    destruct (loop_cond args start (now e) (disk_free s)) eqn:C; [ | discriminate ].
    destruct (result (loop_body args e s)); [ | discriminate ].
    cbn [result fst]. apply IH. exists x. split; [ | exact Hx ].
    destruct Hin as [<-|Hin]; [ | exact Hin ].
    apply loop_cond_iff in C. lia.
Qed.

Lemma run_stops args su ticks :
  (exists e, In e ticks /\ now e >= start_time su + seconds (REC_TIME args)) ->
  result (run args su ticks) <> Ok false.
Proof.
  intros H. rewrite run_unfold. destruct (goes_on su); [ | discriminate ].
  cbv zeta.
  pose proof (while_loop_stops args (start_time su) ticks (loop_start args su) H) as W.
  destruct (result (while_loop args (start_time su) ticks (loop_start args su)))
    as [[|]|x]; [ discriminate | contradiction | discriminate ].
Qed.




(** The run of the witness: three threads are started in the only
    iteration, all three are still running when the loop ends, and all
    three are joined before the record log is written. *)
Example shutdown_joins_the_running_threads :
  trace (run (with_full (Some det) true) (startup_with 500)
           [busy_tick 0 [1; 2] 500; busy_tick 120000 [] 500])
  = [EvWriteRecId; EvMkdir DirSession; EvMkdir DirFull; EvMkdir DirOverlay;
     EvMkdir (DirCrop 0); EvLog LogRecStart;
     EvCheckStop 0 500 true; EvCopyFrame 0%nat 2%nat;
     EvSaveCrop 0%nat 1 true; EvStartOverlay 0%nat 2%nat 1 1%nat; EvLostUpdate [1; 2];
     EvSaveCrop 0%nat 2 true; EvStartFull 1%nat 0%nat;
     EvStartOverlay 2%nat 2%nat 2 1%nat; EvLostUpdate [1; 2];
     EvProbeDisk 500; EvPrune [0%nat; 1%nat; 2%nat]; EvSleep 1;
     EvCheckStop 120000 500 false; EvLog LogRecFinished;
     EvJoin 0%nat; EvJoin 1%nat; EvJoin 2%nat; EvRecordLog].
Proof. vm_compute. reflexivity. Qed.

(** The script on [pre ++ rest], when the loop is still running after
    [pre]: it goes on from where [pre] left it. *)
Lemma run_app args su pre rest :
  result (run args su pre) = Ok false ->
  run args su (pre ++ rest)
  = let w := while_loop args (start_time su) rest (final (run args su pre)) in
    match result w with
    | Ok false => (Ok false, final w, trace (run args su pre) ++ trace w)
    | Ok true =>
        (Ok true, final w,
         trace (run args su pre) ++ trace w ++ [EvLog LogRecFinished]
           ++ finally_events args (threads (final w)))
    | Raise x =>
        (Raise x, final w,
         trace (run args su pre) ++ trace w
           ++ finally_events args (threads (final w)))
    end.
Proof.
  rewrite !run_unfold. destruct (goes_on su); [ | discriminate ].
  rewrite while_loop_app. cbv zeta.
  destruct (result (while_loop args (start_time su) pre (loop_start args su)))
    as [[|]|x]; try discriminate.
  intros _. cbn [result final trace fst snd].
  destruct (result (while_loop args (start_time su) rest
                      (final (while_loop args (start_time su) pre
                                (loop_start args su))))) as [[|]|x];
    rewrite <- ?app_assoc; reflexivity.
Qed.

(** ** The frequency-based full-frame job (lines 258-263, 294-296) *)

Lemma inv_idle I args e :
  q_frame_has e && q_track_has e = false -> inv I (process_sample args e).
Proof.
  intros H t s Hs. rewrite (process_sample_idle args e s H). cbn.
  rewrite app_nil_r. exact Hs.
Qed.

Lemma fire_without_frame e :
  inv (both (fun s => full_job s = Some None) (fun ev => fires_without_frame ev = true))
      (fire e).
Proof.
  unfold fire. apply inv_get_bind. intros t s [Hs Ht]. rewrite Hs.
  destruct (full_fires e); cbn.
  - split; [ exact Hs | ]. apply Forall_app. split; [ exact Ht | repeat constructor ].
  - rewrite app_nil_r. split; assumption.
Qed.

Lemma idle_loop_without_frame args start ticks :
  (forall x, In x ticks -> q_frame_has x && q_track_has x = false) ->
  inv (both (fun s => full_job s = Some None) (fun ev => fires_without_frame ev = true))
      (while_loop args start ticks).
Proof.
  intros Hidle.
  apply inv_while_loop;
    [ .. | intros x Hx; apply inv_idle, Hidle, Hx ];
    first [ apply fire_without_frame | both_parts fire_without_frame ].
Qed.

Lemma for_tracks_state (P : State -> Prop) args e frame_hq cp tr l i :
  (forall s n, P s -> P (set_next_thread n s)) ->
  (forall s ths, P s -> P (set_threads ths s)) ->
  (forall s d, P s -> P (set_lost_frames d s)) ->
  inv (both P (fun _ => True)) (for_tracks (tracklet_body args e frame_hq cp tr) i l).
Proof.
  intros Hn Hl Hd. apply inv_for_tracks. intros j x _. apply inv_tracklet_body.
  - apply both_emit. exact Logic.I.
  - apply both_save_crop. intros ok. exact Logic.I.
  - apply both_start_thread; auto.
  - intros c _. apply both_start_thread; auto.
  - apply both_update; auto.
Qed.

Lemma modify_job_on_sample args e s :
  save_full_frames args = Some freq ->
  q_frame_has e && q_track_has e = true ->
  full_job (final (process_sample args e s)) = Some (Some (frame_hq_of s)).
Proof.
  intros Hf H. rewrite (process_sample_unfold args e s H). cbn [final fst snd].
  destruct (for_tracks_state (fun st => full_job st = Some (Some (frame_hq_of s)))
              args e (frame_hq_of s) (frame_hq_copy_of args s) (tracks_of s)
              (tracks e) 0%nat) with (t := @nil Event) (s := at_for_loop args s)
    as [Hs _]; auto.
  split; [ | constructor ]. unfold at_for_loop. cbn. rewrite Hf. reflexivity.
Qed.

Lemma idle_keeps_full_job args e s :
  q_frame_has e && q_track_has e = false ->
  full_job (final (loop_body args e s)) = full_job s.
Proof.
  intros H. rewrite loop_body_unfold, (process_sample_idle args e s H). reflexivity.
Qed.

(** C10.  With [-full freq], the job "full" is added with [None] in place
    of a frame, and as long as no iteration has found a sample on both
    queues it still has it: the loop being still under way after the
    iterations [pre], none of which found a sample, if the next iteration
    [e] is entered, finds no sample either, and the interval of the job
    elapses in it, then [save_full_frame] is called with [None]; and no
    firing up to there was handed a frame.  An iteration replaces the
    argument by its frame when it finds a sample, and leaves the argument
    alone when it does not. *)
Theorem C10_full_job_fires_with_None_before_first_sample args su pre e post :
  save_full_frames args = Some freq ->
  (forall x, In x (pre ++ [e]) -> q_frame_has x && q_track_has x = false) ->
  result (run args su pre) = Ok false ->
  loop_cond args (start_time su) (now e) (disk_free (final (run args su pre))) = true ->
  full_fires e = true ->
  full_job (final (run args su pre)) = Some None
  /\ In (EvFullJobFires None) (trace (run args su (pre ++ e :: post)))
  /\ Forall (fun ev => fires_without_frame ev = true) (trace (run args su (pre ++ [e])))
  /\ (forall x s, q_frame_has x && q_track_has x = true ->
        full_job (final (process_sample args x s)) = Some (Some (frame_hq_of s)))
  /\ (forall x s, q_frame_has x && q_track_has x = false ->
        full_job (final (loop_body args x s)) = full_job s).
Proof.
  intros Hfreq Hidle Hpre Hcond Hfire.
  assert (Hjob : forall ticks,
             (forall x, In x ticks -> q_frame_has x && q_track_has x = false) ->
             result (run args su ticks) = Ok false ->
             full_job (final (run args su ticks)) = Some None
             /\ Forall (fun ev => fires_without_frame ev = true)
                       (trace (run args su ticks))).
  { intros ticks Hi. rewrite run_unfold. destruct (goes_on su); [ | discriminate ].
    cbv zeta.
    destruct (idle_loop_without_frame args (start_time su) ticks Hi
                (pre_loop_events args su) (loop_start args su)) as [Hs Ht].
    { split.
      - cbn. rewrite Hfreq. reflexivity.
      - apply pre_loop_events_are. by_setup. }
    destruct (result (while_loop args (start_time su) ticks (loop_start args su)))
      as [[|]|x]; try discriminate.
    intros _. split; [ exact Hs | exact Ht ]. }
  assert (Hpre_idle : forall x, In x pre -> q_frame_has x && q_track_has x = false)
    by (intros x Hx; apply Hidle, in_or_app; left; exact Hx).
  assert (He : q_frame_has e && q_track_has e = false)
    by (apply Hidle, in_or_app; right; left; reflexivity).
  destruct (Hjob pre Hpre_idle Hpre) as [Hs Ht].
  assert (Hbody : forall rest,
             trace (while_loop args (start_time su) (e :: rest) (final (run args su pre)))
             = EvCheckStop (now e) (disk_free (final (run args su pre))) true
               :: end_of_iteration e (final (run args su pre))
               ++ match (if interrupt e then Raise KeyboardInterrupt else Ok tt) with
                  | Ok _ => trace (while_loop args (start_time su) rest
                                     (after_sleep e (final (run args su pre))))
                  | Raise _ => []
                  end).
  { intros rest. rewrite while_loop_cons. cbv zeta. rewrite Hcond.
    rewrite loop_body_unfold, (process_sample_idle args e _ He).
    cbn [result final trace fst snd app].
    destruct (interrupt e); cbn [result final trace fst snd app];
      rewrite ?app_nil_r; reflexivity. }
  assert (Hin : In (EvFullJobFires None) (end_of_iteration e (final (run args su pre)))).
  { unfold end_of_iteration. rewrite Hfire, Hs. apply in_or_app. right. left. reflexivity. }
  split; [ exact Hs | split; [ | split; [ | split ] ] ].
  - rewrite (run_app args su pre (e :: post) Hpre). cbv zeta.
    assert (Hw : In (EvFullJobFires None)
                    (trace (while_loop args (start_time su) (e :: post)
                              (final (run args su pre))))).
    { rewrite Hbody. right. apply in_or_app. left. exact Hin. }
    destruct (result (while_loop args (start_time su) (e :: post)
                        (final (run args su pre)))) as [[|]|x];
      cbn [trace snd]; apply in_or_app; right;
      try (apply in_or_app; left); exact Hw.
  - rewrite (run_app args su pre [e] Hpre). cbv zeta.
    assert (Hw : Forall (fun ev => fires_without_frame ev = true)
                        (trace (run args su pre)
                         ++ trace (while_loop args (start_time su) [e]
                                     (final (run args su pre))))).
    { apply (idle_loop_without_frame args (start_time su) [e]).
      - intros x [<-|[]]. exact He.
      - split; [ exact Hs | exact Ht ]. }
    assert (Hfin : forall ths, Forall (fun ev => fires_without_frame ev = true)
                                      (finally_events args ths)).
    { intros ths. unfold finally_events.
      repeat (apply Forall_app; split);
        try (apply Forall_forall; intros y Hy; apply in_map_iff in Hy;
             destruct Hy as [k [<- _]]; reflexivity);
        repeat match goal with |- context [if ?b then _ else _] => destruct b end;
        repeat constructor. }
    apply Forall_app in Hw. destruct Hw as [H1 H2].
    destruct (result (while_loop args (start_time su) [e] (final (run args su pre))))
      as [[|]|x]; cbn [trace snd].
    + apply Forall_app; split; [ exact H1 | ].
      apply Forall_app; split; [ exact H2 | ].
      apply Forall_app; split; [ repeat constructor | apply Hfin ].
    + apply Forall_app; split; assumption.
    + apply Forall_app; split; [ exact H1 | ].
      apply Forall_app; split; [ exact H2 | apply Hfin ].
  - intros x s Hx. apply modify_job_on_sample; assumption.
  - intros x s Hx. apply idle_keeps_full_job. exact Hx.
Qed.

Lemma C10_full_job_fires_with_None_before_first_sample_witness :
  In (EvFullJobFires None)
     (trace (run (with_full (Some freq) false) (startup_with 500)
               ([idle_tick 0 false; idle_tick 1000 false]
                ++ idle_tick 60000 true :: [sample_tick 61000 [1] 500]))).
Proof.
  apply (C10_full_job_fires_with_None_before_first_sample
           (with_full (Some freq) false) (startup_with 500)
           [idle_tick 0 false; idle_tick 1000 false] (idle_tick 60000 true)
           [sample_tick 61000 [1] 500]).
  - reflexivity.
  - intros x Hx. cbn in Hx.
    destruct Hx as [<-|[<-|[<-|[]]]]; reflexivity.
  - vm_compute. reflexivity.
  - vm_compute. reflexivity.
  - reflexivity.
Defined.

(** ** A save that raises (lines 285, 320-322, 366-377) *)

Lemma update_on_empty current s :
  lost_frames s = [] ->
  lost_frames_update current s = (Ok tt, s, [EvLostUpdate current]).
Proof.
  intros H. unfold lost_frames_update, bind, get, emit. cbn. rewrite H. reflexivity.
Qed.

Lemma tracklet_body_result args e frame_hq tr i tracklet s s0 :
  lost_frames s = [] ->
  result (tracklet_body args e frame_hq (frame_hq_copy_of args s0) tr i tracklet s)
  = (if is_TRACKED (status tracklet) && crop_fails e i then Raise SaveError else Ok tt)
  /\ lost_frames
       (final (tracklet_body args e frame_hq (frame_hq_copy_of args s0) tr i tracklet s))
     = [].
Proof.
  intros H. unfold tracklet_body, tracklet_save. rewrite result_bind, final_bind.
  match goal with |- context [result (?m s)] => set (first := m s) end.
  assert (F : result first
              = (if is_TRACKED (status tracklet) && crop_fails e i
                 then Raise SaveError else Ok tt)
              /\ lost_frames (final first) = []).
  { subst first. unfold save_crop_metadata, frame_hq_copy_of, start_thread.
    destruct (status tracklet), (bbox_ae_region args), (crop_fails e i),
      (save_full_frames args) as [[]|], (is_last (length (tracks e)) i),
      (save_overlay_frames args);
      unfold bind, get, emit, modify, ret, raise, when; cbn; split;
      first [ reflexivity | exact H ]. }
  destruct F as [Fr Fs]. rewrite Fr.
  destruct (is_TRACKED (status tracklet) && crop_fails e i).
  - split; [ reflexivity | exact Fs ].
  - rewrite (update_on_empty _ _ Fs). split; [ reflexivity | exact Fs ].
Qed.




(** The handlers that would log an error of the recording (lines 366-372)
    are commented out: no run logs one. *)
Lemma script_never_logs_exception args su ticks :
  Forall (fun e => is_log_exception e = false) (trace (run args su ticks)).
Proof.
  assert (H : quiet is_log_exception (script args su ticks)).
  { apply inv_script; [ .. | intros e _; apply inv_process_sample ];
      both_parts (update_quiet is_log_exception). }
  destruct (H [] init) as [_ Ht]; [ split; [ exact Logic.I | constructor ] | exact Ht ].
Qed.




(** ** Order of the work on a sample (lines 302-352) *)

Lemma tracklet_save_facts args e frame_hq tr i tracklet s s0 :
  let r := tracklet_save args e frame_hq (frame_hq_copy_of args s0) tr i tracklet s in
  result r
  = (if is_TRACKED (status tracklet) && crop_fails e i then Raise SaveError else Ok tt)
  /\ lost_frames (final r) = lost_frames s
  /\ filter is_crop (trace r)
     = (if is_TRACKED (status tracklet)
        then [EvSaveCrop frame_hq (id tracklet) (negb (crop_fails e i))] else [])
  /\ count is_update (trace r) = 0%nat.
Proof.
  unfold tracklet_save, save_crop_metadata, frame_hq_copy_of, start_thread.
  destruct (status tracklet), (bbox_ae_region args), (crop_fails e i),
    (save_full_frames args) as [[]|], (is_last (length (tracks e)) i),
    (save_overlay_frames args);
    unfold bind, get, emit, modify, ret, raise, when; cbn; repeat split; reflexivity.
Qed.

Lemma for_tracks_in_order args e frame_hq tr s0 l :
  forall i s,
    lost_frames s = [] ->
    crop_failure e i l = false ->
    let r := for_tracks (tracklet_body args e frame_hq (frame_hq_copy_of args s0) tr)
                        i l s in
    filter is_crop (trace r)
    = map (fun tracklet => EvSaveCrop frame_hq (id tracklet) true)
          (filter (fun tracklet => is_TRACKED (status tracklet)) l)
    /\ count is_update (trace r) = length l.
Proof.
  induction l as [|x rest IH]; intros i s H Hc; cbn [for_tracks crop_failure] in *.
  - split; reflexivity.
  - apply orb_false_iff in Hc. destruct Hc as [Hx Hrest].
    cbv zeta. rewrite trace_bind.
    destruct (tracklet_body_result args e frame_hq tr i x s s0 H) as [Hr Hf].
    rewrite Hx in Hr. rewrite Hr.
    destruct (IH (S i) _ Hf Hrest) as [IHc IHu].
    rewrite filter_app, count_app, IHc, IHu.
    unfold tracklet_body. rewrite trace_bind.
    destruct (tracklet_save_facts args e frame_hq tr i x s s0) as [Sr [Sl [Sc Su]]].
    rewrite Hx in Sr. rewrite Sr, update_on_empty by (rewrite Sl; exact H).
    cbn [trace snd]. rewrite filter_app, count_app, Sc, Su.
    cbn [filter is_crop is_update count length app Nat.add].
    rewrite app_nil_r. split; [ | reflexivity ].
    cbn [filter]. destruct (is_TRACKED (status x)) eqn:T; [ | reflexivity ].
    cbn [andb] in Hx. rewrite Hx. reflexivity.
Qed.

(** X14.  On a sample whose saves all succeed, started with an empty
    table, a crop is saved for every TRACKED tracklet and for no other, in
    the order of the tracker's list and each from [frame_hq]; and lines
    340-352 run as many times as the list has tracklets. *)
Lemma sample_in_source_order args e s :
  lost_frames s = [] ->
  q_frame_has e && q_track_has e = true ->
  crop_failure e 0 (tracks e) = false ->
  filter is_crop (trace (process_sample args e s))
  = map (fun tracklet => EvSaveCrop (frame_hq_of s) (id tracklet) true)
        (filter (fun tracklet => is_TRACKED (status tracklet)) (tracks e))
  /\ count is_update (trace (process_sample args e s)) = length (tracks e).
Proof.
  intros H Hq Hc. rewrite (process_sample_unfold args e s Hq). cbn [trace snd].
  destruct (for_tracks_in_order args e (frame_hq_of s) (tracks_of s) s (tracks e)
              0%nat (at_for_loop args s) H Hc) as [Fc Fu].
  rewrite filter_app, count_app, Fc, Fu.
  unfold before_for_loop.
  destruct (is_freq (save_full_frames args)), (save_overlay_frames args);
    split; reflexivity.
Qed.

(** * Further properties of the script *)

(** ** The free-space figure (lines 139, 355) *)

Lemma round_div_cases bytes :
  exists q r,
    bytes = 1048576 * q + r /\ 0 <= r < 1048576
    /\ (free_mb bytes = q \/ free_mb bytes = q + 1)
    /\ (free_mb bytes = q -> 2 * r < 1048576 \/ (2 * r = 1048576 /\ exists k, q = 2 * k))
    /\ (free_mb bytes = q + 1 ->
         1048576 < 2 * r \/ (2 * r = 1048576 /\ exists k, q = 2 * k + 1)).
Proof.
  exists (bytes / 1048576), (bytes mod 1048576).
  pose proof (Z.div_mod bytes 1048576 ltac:(lia)) as Hdm.
  pose proof (Z.mod_pos_bound bytes 1048576 ltac:(lia)) as Hr.
  split; [ exact Hdm | split; [ exact Hr | ] ].
  unfold free_mb, round_div. cbv zeta.
  destruct (2 * (bytes mod 1048576) <? 1048576) eqn:E1.
  - apply Z.ltb_lt in E1. repeat split; [ left; reflexivity | left; exact E1 | lia ].
  - apply Z.ltb_ge in E1.
    destruct (1048576 <? 2 * (bytes mod 1048576)) eqn:E2.
    + apply Z.ltb_lt in E2. repeat split; [ right; reflexivity | lia | left; exact E2 ].
    + apply Z.ltb_ge in E2.
      destruct (Z.even (bytes / 1048576)) eqn:E3.
      * apply Z.even_spec in E3. destruct E3 as [k Hk].
        repeat split; [ left; reflexivity | | lia ].
        intros _. right. split; [ lia | exists k; exact Hk ].
      * assert (O : Z.odd (bytes / 1048576) = true)
          by (rewrite <- Z.negb_even, E3; reflexivity).
        apply Z.odd_spec in O. destruct O as [k Hk].
        repeat split; [ right; reflexivity | lia | ].
        intros _. right. split; [ lia | exists k; exact Hk ].
Qed.


Lemma low_disk_bytes su :
  low_disk su = true <-> start_free_bytes su < bytes_100MB.
Proof.
  unfold low_disk, MIN_DISKSPACE, bytes_100MB. rewrite Z.ltb_lt.
  destruct (round_div_cases (start_free_bytes su)) as [q [r [Hb [Hr [Hc [Hq Hq1]]]]]].
  destruct Hc as [E|E]; rewrite E.
  - destruct (Hq E) as [H|[H [k Hk]]]; lia.
  - destruct (Hq1 E) as [H|[H [k Hk]]]; lia.
Qed.

Lemma loop_disk_condition_bytes bytes :
  (free_mb bytes >? MIN_DISKSPACE) = true <-> bytes >= bytes_101MB.
Proof.
  unfold MIN_DISKSPACE, bytes_101MB. rewrite Z.gtb_gt.
  destruct (round_div_cases bytes) as [q [r [Hb [Hr [Hc [Hq Hq1]]]]]].
  destruct Hc as [E|E]; rewrite E.
  - destruct (Hq E) as [H|[H [k Hk]]]; lia.
  - destruct (Hq1 E) as [H|[H [k Hk]]]; lia.
Qed.

(** X2.  In bytes: the start-up check shuts the Pi down exactly when fewer
    than 99.5 MB are free (exactly 99.5 MB rounds to the even 100 and
    passes), and the disk half of the loop condition holds exactly when more
    than 100.5 MB are free (exactly 100.5 MB rounds to the even 100 and ends
    the recording). *)
Theorem disk_thresholds_in_bytes :
  (forall su, low_disk su = true <-> start_free_bytes su < bytes_100MB)
  /\ (forall bytes, (free_mb bytes >? MIN_DISKSPACE) = true <-> bytes >= bytes_101MB).
Proof. split; [ exact low_disk_bytes | exact loop_disk_condition_bytes ]. Qed.

(** X3.  Between 99.5 MB and 100.5 MB free the start-up check lets the
    script go on, and the loop condition is false at once, whatever the
    clock reads. *)
Theorem session_without_recording su args start now_ :
  bytes_100MB <= start_free_bytes su < bytes_101MB ->
  low_disk su = false
  /\ loop_cond args start now_ (free_mb (start_free_bytes su)) = false.
Proof.
  intros [Hlo Hhi]. split.
  - destruct (low_disk su) eqn:L; [ | reflexivity ].
    apply low_disk_bytes in L. lia.
  - unfold loop_cond.
    destruct (free_mb (start_free_bytes su) >? MIN_DISKSPACE) eqn:C.
    + apply loop_disk_condition_bytes in C. lia.
    + apply andb_false_r.
Qed.

Lemma session_without_recording_witness :
  low_disk (startup_with 100) = false
  /\ loop_cond default_args 0 0 (free_mb (start_free_bytes (startup_with 100))) = false.
Proof.
  apply (session_without_recording (startup_with 100) default_args 0 0).
  vm_compute. split; [ discriminate | reflexivity ].
Defined.

(** X4.  After an iteration that measured no more than 100.5 MB free, the loop
    ends at the next evaluation of its condition: nothing of the next
    iteration happens. *)
Theorem no_iteration_after_low_probe args start e e' rest s :
  loop_cond args start (now e) (disk_free s) = true ->
  result (loop_body args e s) = Ok tt ->
  free_bytes e < bytes_101MB ->
  while_loop args start (e :: e' :: rest) s
  = (Ok true, final (loop_body args e s),
     EvCheckStop (now e) (disk_free s) true
     :: trace (loop_body args e s)
     ++ [EvCheckStop (now e') (free_mb (free_bytes e)) false]).
Proof.
  intros Hc Hr Hb.
  assert (Hd : disk_free (final (loop_body args e s)) = free_mb (free_bytes e)).
  { revert Hr. rewrite loop_body_unfold. cbv zeta.
    destruct (result (process_sample args e s)); [ | discriminate ].
    intros _. reflexivity. }
  rewrite while_loop_cons. cbv zeta. rewrite Hc, Hr.
  rewrite while_loop_cons. cbv zeta. rewrite Hd.
  assert (C : loop_cond args start (now e') (free_mb (free_bytes e)) = false).
  { unfold loop_cond. destruct (free_mb (free_bytes e) >? MIN_DISKSPACE) eqn:C.
    - apply loop_disk_condition_bytes in C. lia.
    - apply andb_false_r. }
  rewrite C. reflexivity.
Qed.

Lemma no_iteration_after_low_probe_witness :
  result (while_loop default_args 0
            [sample_tick 0 [1] 100; sample_tick 1000 [1] 500]
            (loop_start default_args (startup_with 500))) = Ok true.
Proof.
  rewrite (no_iteration_after_low_probe default_args 0
             (sample_tick 0 [1] 100) (sample_tick 1000 [1] 500) []
             (loop_start default_args (startup_with 500))).
  - reflexivity.
  - reflexivity.
  - reflexivity.
  - vm_compute. reflexivity.
Defined.

(** ** Lines 340-352 on a table that holds counters *)

Lemma dict_set_middle done k v x rest :
  ~ In k (keys done) ->
  dict_set (done ++ (k, v) :: rest) k x = done ++ (k, x) :: rest.
Proof.
  induction done as [|[k' v'] r IH]; cbn; intros H.
  - rewrite Z.eqb_refl. reflexivity.
  - destruct (Z.eqb_spec k' k) as [E|E].
    + exfalso. apply H. left. exact E.
    + f_equal. apply IH. intros Hin. apply H. right. exact Hin.
Qed.

Lemma dict_get_middle done k v rest :
  ~ In k (keys done) ->
  dict_get (done ++ (k, v) :: rest) k = Some v.
Proof.
  induction done as [|[k' v'] r IH]; cbn; intros H.
  - rewrite Z.eqb_refl. reflexivity.
  - destruct (Z.eqb_spec k' k) as [E|E].
    + exfalso. apply H. left. exact E.
    + apply IH. intros Hin. apply H. right. exact Hin.
Qed.

Lemma dict_del_middle done k v rest :
  ~ In k (keys done) ->
  dict_del (done ++ (k, v) :: rest) k = done ++ rest.
Proof.
  induction done as [|[k' v'] r IH]; cbn; intros H.
  - rewrite Z.eqb_refl. reflexivity.
  - destruct (Z.eqb_spec k' k) as [E|E].
    + exfalso. apply H. left. exact E.
    + f_equal. apply IH. intros Hin. apply H. right. exact Hin.
Qed.

Lemma NoDup_keys_middle done k v rest :
  NoDup (keys (done ++ (k, v) :: rest)) -> ~ In k (keys done).
Proof.
  unfold keys. rewrite map_app. cbn [map fst]. intros H Hin.
  apply NoDup_remove_2 in H. apply H. apply in_or_app. left. exact Hin.
Qed.

Lemma keys_step_table current d : keys (step_table current d) = keys d.
Proof.
  unfold keys, step_table. rewrite map_map. apply map_ext. intros [k v]. reflexivity.
Qed.

(** One pass of the iteration over the entry [(k, v)] that stays below the
    threshold. *)
Lemma iter_entry current k v rest_keys done rest s :
  lost_frames s = done ++ (k, v) :: rest ->
  ~ In k (keys done) ->
  snd (step_entry current (k, v)) < LOST_FRAMES_TILL_REMOVAL ->
  lost_frames_iter current (k :: rest_keys) s
  = lost_frames_iter current rest_keys
      (set_lost_frames (done ++ step_entry current (k, v) :: rest) s).
Proof.
  intros Hs Hk Hlt. cbn [lost_frames_iter]. unfold step_entry in *. cbn [fst snd] in *.
  destruct (mem k current).
  - erewrite bind_Ok by reflexivity. cbn [result final trace fst snd app].
    rewrite Hs, dict_set_middle by exact Hk.
    symmetry. apply surj.
  - erewrite bind_Ok by reflexivity. cbn [result final trace fst snd app].
    erewrite bind_Ok by reflexivity. cbn [result final trace fst snd app].
    unfold default_get. cbn [lost_frames set_lost_frames].
    rewrite Hs, dict_get_middle, dict_set_middle, dict_get_middle by exact Hk.
    replace (v + 1 >=? LOST_FRAMES_TILL_REMOVAL) with false
      by (symmetry; rewrite Z.geb_leb; apply Z.leb_gt; exact Hlt).
    symmetry. apply surj.
Qed.

Lemma iter_steps current todo :
  forall done s,
    lost_frames s = done ++ todo ->
    NoDup (keys (done ++ todo)) ->
    below_threshold current todo ->
    lost_frames_iter current (keys todo) s
    = (Ok tt, set_lost_frames (done ++ step_table current todo) s, []).
Proof.
  induction todo as [|[k v] rest IH]; intros done s Hs Hnd Hb.
  - cbn. rewrite <- Hs. destruct s; reflexivity.
  - inversion Hb as [|? ? Hkv Hrest]; subst.
    cbn [keys map fst].
    rewrite (iter_entry current k v (map fst rest) done rest s Hs
               (NoDup_keys_middle done k v rest Hnd) Hkv).
    change (map fst rest) with (keys rest).
    rewrite (IH (done ++ [step_entry current (k, v)])).
    + cbn [step_table map]. rewrite <- app_assoc. reflexivity.
    + cbn [lost_frames set_lost_frames]. rewrite <- app_assoc. reflexivity.
    + rewrite <- app_assoc. cbn [app].
      unfold keys in *. rewrite map_app in *. cbn [map fst step_entry] in *. exact Hnd.
    + exact Hrest.
Qed.

(** X5.  While no counter gets to the threshold, one run of lines 340-352
    returns, keeps the entries in their order, resets the counter of every
    active ID and adds one to every other. *)
Theorem update_steps_every_counter current s :
  NoDup (keys (lost_frames s)) ->
  below_threshold current (lost_frames s) ->
  lost_frames_update current s
  = (Ok tt, set_lost_frames (step_table current (lost_frames s)) s,
     [EvLostUpdate current]).
Proof.
  intros Hnd Hb. unfold lost_frames_update.
  erewrite bind_Ok by reflexivity. cbn [result final trace fst snd].
  erewrite bind_Ok by reflexivity. cbn [result final trace fst snd].
  rewrite (iter_steps current (lost_frames s) [] s eq_refl Hnd Hb). reflexivity.
Qed.

Lemma update_steps_every_counter_witness :
  lost_frames_update [1] (set_lost_frames [(1, 2); (2, 1); (3, 0)] init)
  = (Ok tt, set_lost_frames [(1, 0); (2, 2); (3, 1)] init, [EvLostUpdate [1]]).
Proof.
  apply (update_steps_every_counter [1]
           (set_lost_frames [(1, 2); (2, 1); (3, 0)] init)).
  - repeat constructor; cbn; intuition discriminate.
  - repeat constructor.
Defined.

Lemma iter_reaches_threshold current mid :
  forall done k v rest s,
    lost_frames s = done ++ mid ++ (k, v) :: rest ->
    NoDup (keys (done ++ mid ++ (k, v) :: rest)) ->
    below_threshold current mid ->
    mem k current = false ->
    LOST_FRAMES_TILL_REMOVAL <= v + 1 ->
    lost_frames_iter current (keys (mid ++ (k, v) :: rest)) s
    = (Raise RuntimeError,
       set_lost_frames (done ++ step_table current mid ++ rest) s,
       [EvPrintRemoving k; EvSendTrackData k]).
Proof.
  induction mid as [|[k0 v0] mid IH]; intros done k v rest s Hs Hnd Hb Hm Hv.
  - cbn [app keys map fst lost_frames_iter step_table] in *. rewrite Hm.
    pose proof (NoDup_keys_middle done k v rest Hnd) as Hk.
    erewrite bind_Ok by reflexivity. cbn [result final trace fst snd app].
    erewrite bind_Ok by reflexivity. cbn [result final trace fst snd app].
    unfold default_get. cbn [lost_frames set_lost_frames].
    rewrite Hs, dict_get_middle, dict_set_middle, dict_get_middle by exact Hk.
    replace (v + 1 >=? LOST_FRAMES_TILL_REMOVAL) with true
      by (symmetry; rewrite Z.geb_leb; apply Z.leb_le; exact Hv).
    unfold bind, emit, modify, raise. cbn.
    rewrite dict_del_middle by exact Hk. reflexivity.
  - inversion Hb as [|? ? Hkv Hrest]; subst.
    cbn [app keys map fst] in *.
    rewrite (iter_entry current k0 v0 (map fst (mid ++ (k, v) :: rest)) done
               (mid ++ (k, v) :: rest) s Hs
               (NoDup_keys_middle done k0 v0 _ Hnd) Hkv).
    change (map fst (mid ++ (k, v) :: rest)) with (keys (mid ++ (k, v) :: rest)).
    rewrite (IH (done ++ [step_entry current (k0, v0)]) k v rest).
    + cbn [step_table map]. rewrite <- app_assoc. reflexivity.
    + cbn [lost_frames set_lost_frames]. rewrite <- app_assoc. reflexivity.
    + rewrite <- app_assoc. cbn [app].
      unfold keys in *. rewrite map_app in *. cbn [map fst step_entry] in *. exact Hnd.
    + exact Hrest.
    + exact Hm.
    + exact Hv.
Qed.

(** X6.  The first counter, in the order of the table, that gets to the
    threshold: the counters before it are stepped, the track is printed and
    sent once and its entry deleted, and the deletion ends the iteration
    with [RuntimeError]; the counters after it are not looked at. *)
Theorem update_at_threshold_sends_then_raises current done k v rest s :
  lost_frames s = done ++ (k, v) :: rest ->
  NoDup (keys (lost_frames s)) ->
  below_threshold current done ->
  mem k current = false ->
  LOST_FRAMES_TILL_REMOVAL <= v + 1 ->
  lost_frames_update current s
  = (Raise RuntimeError,
     set_lost_frames (step_table current done ++ rest) s,
     [EvLostUpdate current; EvPrintRemoving k; EvSendTrackData k]).
Proof.
  intros Hs Hnd Hb Hm Hv. unfold lost_frames_update.
  erewrite bind_Ok by reflexivity. cbn [result final trace fst snd].
  erewrite bind_Ok by reflexivity. cbn [result final trace fst snd].
  rewrite Hs in Hnd |- *.
  rewrite (iter_reaches_threshold current done [] k v rest s Hs Hnd Hb Hm Hv).
  reflexivity.
Qed.

Lemma update_at_threshold_sends_then_raises_witness :
  lost_frames_update [1] (set_lost_frames [(1, 2); (2, 2); (3, 2)] init)
  = (Raise RuntimeError, set_lost_frames [(1, 0); (3, 2)] init,
     [EvLostUpdate [1]; EvPrintRemoving 2; EvSendTrackData 2]).
Proof.
  apply (update_at_threshold_sends_then_raises [1] [(1, 2)] 2 2 [(3, 2)]
           (set_lost_frames [(1, 2); (2, 2); (3, 2)] init)).
  - reflexivity.
  - repeat constructor; cbn; intuition discriminate.
  - repeat constructor.
  - reflexivity.
  - vm_compute. discriminate.
Defined.

(** ** The shape of a run *)

Lemma while_loop_events args start ticks s :
  Forall (fun e => loop_event e = true) (trace (while_loop args start ticks s)).
Proof.
  assert (H : inv (both (fun _ => True) (fun e => loop_event e = true))
                  (while_loop args start ticks)).
  { apply inv_while_loop; [ .. | intros e _; apply inv_process_sample ];
      both_parts (both_update (fun _ : State => True) (fun e => loop_event e = true)). }
  destruct (H [] s) as [_ Ht]; [ split; [ exact Logic.I | constructor ] | exact Ht ].
Qed.

Lemma count_all_false p t :
  (forall e, In e t -> p e = false) -> count p t = 0%nat.
Proof. intros H. apply count_none, Forall_forall. exact H. Qed.

Lemma count_positive p e t : In e t -> p e = true -> (0 < count p t)%nat.
Proof.
  intros Hin Hp. apply in_split in Hin. destruct Hin as [t1 [t2 ->]].
  rewrite count_app. unfold count at 2. cbn [filter]. rewrite Hp. cbn. lia.
Qed.

Lemma while_loop_count_none p args start ticks s :
  (forall e, loop_event e = true -> p e = false) ->
  count p (trace (while_loop args start ticks s)) = 0%nat.
Proof.
  intros H. apply count_none.
  eapply Forall_impl; [ | apply while_loop_events ]. exact H.
Qed.

Lemma pre_loop_count_none p args su :
  (forall e, is_setup e = true -> p e = false) ->
  count p (pre_loop_events args su) = 0%nat.
Proof. intros H. apply count_none, pre_loop_events_are. exact H. Qed.

(** A run that got past the start-up check: what precedes the loop, the
    loop, what follows it. *)
Lemma run_trace args su ticks :
  goes_on su = true ->
  let w := while_loop args (start_time su) ticks (loop_start args su) in
  result (run args su ticks) = result w
  /\ final (run args su ticks) = final w
  /\ trace (run args su ticks)
     = pre_loop_events args su ++ trace w
       ++ after_loop args (result w) (threads (final w)).
Proof.
  intros G. cbv zeta. rewrite run_unfold, G. cbv zeta.
  destruct (result (while_loop args (start_time su) ticks (loop_start args su)))
    as [[|]|x]; cbn [result final trace fst snd after_loop];
    rewrite ?app_nil_r; repeat split; reflexivity.
Qed.

Lemma run_trace_stopped args su ticks :
  goes_on su = false ->
  result (run args su ticks) = Raise CalledProcessError
  /\ trace (run args su ticks) = disk_check_events su.
Proof. intros G. rewrite run_unfold, G. split; reflexivity. Qed.

Lemma finally_events_count p args ths :
  (forall th, p (EvJoin th) = false) ->
  count p (finally_events args ths)
  = ((if has_scheduler args && p EvSchedulerShutdown then 1 else 0)
     + (if p EvRecordLog then 1 else 0)
     + (if zip_data args && p EvZip then 1 else 0))%nat.
Proof.
  intros Hj. unfold finally_events. rewrite !count_app.
  replace (count p (map EvJoin ths)) with 0%nat.
  - unfold count.
    destruct (has_scheduler args), (zip_data args); cbn [filter andb];
      destruct (p EvSchedulerShutdown), (p EvRecordLog), (p EvZip); reflexivity.
  - symmetry. apply count_all_false. intros e He.
    apply in_map_iff in He. destruct He as [th [<- _]]. apply Hj.
Qed.

(** ** The log line of a regular end (line 364) *)

(** X9.  "Recording finished" is logged exactly once when the loop ends by its
    condition, and not at all when the script ends with an exception. *)
Theorem finished_is_logged_on_regular_end_only args su ticks :
  count is_finished_log (trace (run args su ticks))
  = match result (run args su ticks) with Ok true => 1%nat | _ => 0%nat end.
Proof.
  destruct (goes_on su) eqn:G.
  - destruct (run_trace args su ticks G) as [Hr [_ Ht]]. rewrite Hr, Ht.
    rewrite !count_app.
    rewrite pre_loop_count_none by by_setup.
    rewrite while_loop_count_none by (intros e He; destruct e; try discriminate; reflexivity).
    destruct (result (while_loop args (start_time su) ticks (loop_start args su)))
      as [[|]|x]; cbn [after_loop].
    + change (EvLog LogRecFinished :: ?l) with ([EvLog LogRecFinished] ++ l).
      rewrite count_app, finally_events_count by reflexivity.
      cbn. rewrite !andb_false_r. reflexivity.
    + reflexivity.
    + rewrite finally_events_count by reflexivity.
      cbn. rewrite !andb_false_r. reflexivity.
  - destruct (run_trace_stopped args su ticks G) as [Hr Ht]. rewrite Hr, Ht.
    unfold disk_check_events. destruct (low_disk su); reflexivity.
Qed.

(** ** The scheduler (lines 246-263, 376-377) *)

Lemma setup_events_scheduler_start args :
  count is_scheduler_start (setup_events args)
  = if has_scheduler args then 1%nat else 0%nat.
Proof.
  unfold setup_events, has_scheduler.
  destruct (save_logs args), (is_freq (save_full_frames args)), (is_some (af_range args));
    reflexivity.
Qed.

Lemma open_session_events_count_none p args su :
  p EvWriteRecId = false -> (forall d, p (EvMkdir d) = false) ->
  count p (open_session_events args su) = 0%nat.
Proof.
  intros Hw Hm. apply count_all_false. intros e He. unfold open_session_events in He.
  repeat (apply in_app_or in He; destruct He as [He|He]).
  - destruct He as [<-|[<-|[]]]; [ exact Hw | apply Hm ].
  - destruct (is_some (save_full_frames args)); [ | contradiction ].
    destruct He as [<-|[]]. apply Hm.
  - destruct (save_overlay_frames args); [ | contradiction ].
    destruct He as [<-|[]]. apply Hm.
  - apply in_map_iff in He. destruct He as [k [<- _]]. apply Hm.
Qed.

(** X10.  The scheduler is started exactly once if [-log] or [-full freq] asks
    for one, and never otherwise or when the start-up check ends the
    script; it is shut down exactly once when a run with a scheduler stops,
    and not before. *)
Theorem scheduler_started_once_and_shut_down_once args su ticks :
  count is_scheduler_start (trace (run args su ticks))
  = (if goes_on su && has_scheduler args then 1%nat else 0%nat)
  /\ count is_scheduler_shutdown (trace (run args su ticks))
     = match result (run args su ticks) with
       | Ok false => 0%nat
       | _ => if goes_on su && has_scheduler args then 1%nat else 0%nat
       end.
Proof.
  destruct (goes_on su) eqn:G.
  - destruct (run_trace args su ticks G) as [Hr [_ Ht]]. rewrite Hr, Ht.
    rewrite !count_app.
    rewrite !while_loop_count_none
      by (intros e He; destruct e; try discriminate; reflexivity).
    rewrite (pre_loop_count_none is_scheduler_shutdown) by by_setup.
    unfold pre_loop_events. rewrite !count_app.
    rewrite open_session_events_count_none by reflexivity.
    rewrite setup_events_scheduler_start.
    replace (count is_scheduler_start (disk_check_events su)) with 0%nat
      by (unfold disk_check_events; destruct (low_disk su); reflexivity).
    cbn [andb Nat.add].
    destruct (result (while_loop args (start_time su) ticks (loop_start args su)))
      as [[|]|x]; cbn [after_loop].
    + change (EvLog LogRecFinished :: ?l) with ([EvLog LogRecFinished] ++ l).
      rewrite !count_app, !finally_events_count by reflexivity.
      cbn. rewrite !andb_false_r, andb_true_r.
      destruct (has_scheduler args); split; reflexivity.
    + split; [ rewrite Nat.add_0_r; reflexivity | reflexivity ].
    + rewrite !finally_events_count by reflexivity.
      cbn. rewrite !andb_false_r, andb_true_r.
      destruct (has_scheduler args); split; reflexivity.
  - destruct (run_trace_stopped args su ticks G) as [Hr Ht]. rewrite Hr, Ht.
    unfold disk_check_events. destruct (low_disk su); split; reflexivity.
Qed.

(** ** How a run can end *)





(** ** How long the loop runs (lines 288, 361) *)

Lemma for_tracks_count_none p args e frame_hq cp tr l :
  (forall i tracklet s,
      count p (trace (tracklet_body args e frame_hq cp tr i tracklet s)) = 0%nat) ->
  forall i s,
    count p (trace (for_tracks (tracklet_body args e frame_hq cp tr) i l s)) = 0%nat.
Proof.
  intros H. induction l as [|x rest IH]; intros i s; cbn [for_tracks].
  - reflexivity.
  - rewrite trace_bind, count_app, H.
    destruct (result (tracklet_body args e frame_hq cp tr i x s)); [ apply IH | reflexivity ].
Qed.

Lemma tracklet_body_no_sleep args e frame_hq cp tr i tracklet s :
  count is_sleep (trace (tracklet_body args e frame_hq cp tr i tracklet s)) = 0%nat.
Proof.
  apply quiet_count. apply inv_tracklet_body.
  - apply both_emit. reflexivity.
  - apply both_save_crop. reflexivity.
  - apply both_start_thread; auto.
  - intros c _. apply both_start_thread; auto.
  - apply update_quiet; reflexivity.
Qed.

Lemma process_sample_no_sleep args e s :
  count is_sleep (trace (process_sample args e s)) = 0%nat.
Proof.
  destruct (q_frame_has e && q_track_has e) eqn:Q.
  - rewrite (process_sample_unfold args e s Q). cbn [trace snd].
    rewrite count_app, for_tracks_count_none
      by (intros; apply tracklet_body_no_sleep).
    unfold before_for_loop.
    destruct (is_freq (save_full_frames args)), (save_overlay_frames args); reflexivity.
  - rewrite (process_sample_idle args e s Q). reflexivity.
Qed.

Lemma loop_body_sleeps_once args e s :
  count is_sleep (trace (loop_body args e s))
  = match result (process_sample args e s) with Ok _ => 1%nat | Raise _ => 0%nat end.
Proof.
  rewrite loop_body_unfold. cbv zeta.
  pose proof (process_sample_no_sleep args e s) as Hp.
  destruct (result (process_sample args e s)); cbn [trace snd].
  - rewrite count_app, Hp. unfold end_of_iteration.
    destruct (full_fires e), (full_job (final (process_sample args e s)));
      reflexivity.
  - exact Hp.
Qed.

Lemma while_loop_paced args start ticks :
  forall n base s,
    paced base ticks = true ->
    start + seconds (REC_TIME args) <= base + seconds CAPTURE_FREQ * Z.of_nat n ->
    (count is_sleep (trace (while_loop args start ticks s)) <= n)%nat
    /\ ((n < length ticks)%nat -> result (while_loop args start ticks s) <> Ok false).
Proof.
  induction ticks as [|e rest IH]; intros n base s Hp Hn.
  - cbn. split; [ lia | intros H; inversion H ].
  - cbn [paced] in Hp. apply andb_true_iff in Hp. destruct Hp as [Hb Hrest].
    apply Z.leb_le in Hb.
    rewrite while_loop_cons. cbv zeta.
    destruct (loop_cond args start (now e) (disk_free s)) eqn:C.
    + apply loop_cond_iff in C. destruct C as [Ct _].
      unfold seconds, CAPTURE_FREQ in *.
      destruct n as [|m]; [ lia | ].
      pose proof (loop_body_sleeps_once args e s) as Hs.
      destruct (IH m (now e + 1 * 1000) (final (loop_body args e s)) Hrest
                  ltac:(lia)) as [IHc IHr].
      destruct (result (loop_body args e s)) eqn:R; cbn [result trace fst snd].
      * split.
        -- change (EvCheckStop ?a ?b ?c :: ?l) with ([EvCheckStop a b c] ++ l).
           rewrite !count_app, Hs. cbn [count filter is_sleep length Nat.add].
           destruct (result (process_sample args e s)); lia.
        -- intros H. apply IHr. cbn [length] in H. lia.
      * split; [ | discriminate ].
        change (EvCheckStop ?a ?b ?c :: ?l) with ([EvCheckStop a b c] ++ l).
        rewrite !count_app, Hs. cbn [count filter is_sleep length Nat.add].
        destruct (result (process_sample args e s)); lia.
    + cbn. split; [ lia | discriminate ].
Qed.

(** X8.  With a clock that at the first iteration is not before the start and
    between two iterations advances by at least the sleep of [CAPTURE_FREQ]
    seconds, the script sleeps at most [REC_TIME] times, and once more
    iterations than that are offered the loop has ended. *)
Theorem recording_ends_within_rec_time args su ticks :
  paced (start_time su) ticks = true ->
  (count is_sleep (trace (run args su ticks)) <= Z.to_nat (REC_TIME args))%nat
  /\ ((Z.to_nat (REC_TIME args) < length ticks)%nat ->
      result (run args su ticks) <> Ok false).
Proof.
  intros Hp.
  destruct (goes_on su) eqn:G.
  - destruct (run_trace args su ticks G) as [Hr [_ Ht]]. rewrite Hr, Ht.
    destruct (while_loop_paced args (start_time su) ticks
                (Z.to_nat (REC_TIME args)) (start_time su) (loop_start args su) Hp)
      as [Hc Hres].
    { unfold seconds, CAPTURE_FREQ. lia. }
    split; [ | exact Hres ].
    rewrite !count_app, pre_loop_count_none by by_setup.
    replace (count is_sleep (after_loop args _ _)) with 0%nat; [ lia | ].
    symmetry.
    destruct (result (while_loop args (start_time su) ticks (loop_start args su)))
      as [[|]|x]; cbn [after_loop]; try reflexivity.
    + change (EvLog LogRecFinished :: ?l) with ([EvLog LogRecFinished] ++ l).
      rewrite count_app, finally_events_count by reflexivity.
      cbn. rewrite !andb_false_r. reflexivity.
    + rewrite finally_events_count by reflexivity.
      cbn. rewrite !andb_false_r. reflexivity.
  - destruct (run_trace_stopped args su ticks G) as [Hr Ht]. rewrite Hr, Ht.
    split; [ | discriminate ].
    unfold disk_check_events. destruct (low_disk su); cbn; lia.
Qed.

Lemma recording_ends_within_rec_time_witness :
  le (count is_sleep
        (trace (run default_args (startup_with 500)
                  [sample_tick 0 [1] 500; sample_tick 1000 [1] 500])))
     120%nat.
Proof.
  apply (recording_ends_within_rec_time default_args (startup_with 500)
           [sample_tick 0 [1] 500; sample_tick 1000 [1] 500]).
  reflexivity.
Defined.

(** ** Directories and what is saved into them (lines 153-157, 258-263, 324-338) *)

Lemma tracklet_full_save_count args e frame_hq cp tr i tracklet s :
  save_full_frames args = None ->
  count is_full_frame_save (trace (tracklet_body args e frame_hq cp tr i tracklet s))
  = 0%nat.
Proof.
  intros Hf. unfold tracklet_body, tracklet_save, save_crop_metadata.
  rewrite trace_bind, count_app, Hf.
  match goal with |- (_ + ?c)%nat = _ => replace c with 0%nat end.
  - destruct (status tracklet), (bbox_ae_region args), (crop_fails e i),
      (is_last (length (tracks e)) i), (save_overlay_frames args), cp; reflexivity.
  - match goal with |- _ = count _ (match ?r with _ => _ end) => destruct r end;
      [ symmetry; apply quiet_count, update_quiet; reflexivity | reflexivity ].
Qed.

Lemma process_sample_keeps_full_job args e s :
  save_full_frames args = None ->
  full_job (final (process_sample args e s)) = full_job s.
Proof.
  intros Hf. destruct (q_frame_has e && q_track_has e) eqn:Q.
  - rewrite (process_sample_unfold args e s Q). cbn [final fst snd].
    destruct (for_tracks_state (fun st => full_job st = full_job s)
                args e (frame_hq_of s) (frame_hq_copy_of args s) (tracks_of s)
                (tracks e) 0%nat) with (t := @nil Event) (s := at_for_loop args s)
      as [Hs _]; auto.
    split; [ | constructor ]. unfold at_for_loop. cbn. rewrite Hf. reflexivity.
  - rewrite (process_sample_idle args e s Q). reflexivity.
Qed.

Lemma loop_body_no_full_save args e s :
  save_full_frames args = None ->
  full_job s = None ->
  count is_full_frame_save (trace (loop_body args e s)) = 0%nat
  /\ full_job (final (loop_body args e s)) = None.
Proof.
  intros Hf Hj.
  assert (Hp : count is_full_frame_save (trace (process_sample args e s)) = 0%nat).
  { destruct (q_frame_has e && q_track_has e) eqn:Q.
    - rewrite (process_sample_unfold args e s Q). cbn [trace snd].
      rewrite count_app, for_tracks_count_none
        by (intros; apply tracklet_full_save_count; exact Hf).
      unfold before_for_loop. rewrite Hf.
      destruct (save_overlay_frames args); reflexivity.
    - rewrite (process_sample_idle args e s Q). reflexivity. }
  pose proof (process_sample_keeps_full_job args e s Hf) as Hk. rewrite Hj in Hk.
  rewrite loop_body_unfold. cbv zeta.
  destruct (result (process_sample args e s)); cbn [trace final fst snd].
  - split; [ | exact Hk ].
    rewrite count_app, Hp. unfold end_of_iteration. rewrite Hk.
    destruct (full_fires e); reflexivity.
  - split; [ exact Hp | exact Hk ].
Qed.

Lemma while_loop_no_full_save args start ticks :
  save_full_frames args = None ->
  forall s, full_job s = None ->
    count is_full_frame_save (trace (while_loop args start ticks s)) = 0%nat.
Proof.
  intros Hf. induction ticks as [|e rest IH]; intros s Hj.
  - reflexivity.
  - rewrite while_loop_cons. cbv zeta.
    destruct (loop_cond args start (now e) (disk_free s)); [ | reflexivity ].
    destruct (loop_body_no_full_save args e s Hf Hj) as [Hc Hk].
    destruct (result (loop_body args e s)); cbn [trace snd];
      change (EvCheckStop ?a ?b ?c :: ?l) with ([EvCheckStop a b c] ++ l);
      rewrite !count_app, Hc, ?IH by exact Hk; reflexivity.
Qed.

Lemma while_loop_no_overlay args start ticks s :
  save_overlay_frames args = false ->
  count is_start_overlay (trace (while_loop args start ticks s)) = 0%nat.
Proof.
  intros Ho. revert s. induction ticks as [|e rest IH]; intros s.
  - reflexivity.
  - rewrite while_loop_cons. cbv zeta.
    destruct (loop_cond args start (now e) (disk_free s)); [ | reflexivity ].
    assert (Hb : count is_start_overlay (trace (loop_body args e s)) = 0%nat).
    { assert (Hp : count is_start_overlay (trace (process_sample args e s)) = 0%nat).
      { destruct (q_frame_has e && q_track_has e) eqn:Q.
        - rewrite (process_sample_unfold args e s Q). cbn [trace snd].
          rewrite count_app, for_tracks_count_none.
          + unfold before_for_loop. rewrite Ho.
            destruct (is_freq (save_full_frames args)); reflexivity.
          + intros. rewrite tracklet_overlay_count, Ho, andb_false_r. reflexivity.
        - rewrite (process_sample_idle args e s Q). reflexivity. }
      rewrite loop_body_unfold. cbv zeta.
      destruct (result (process_sample args e s)); cbn [trace snd]; [ | exact Hp ].
      rewrite count_app, Hp. unfold end_of_iteration.
      destruct (full_fires e), (full_job (final (process_sample args e s)));
        reflexivity. }
    destruct (result (loop_body args e s)); cbn [trace snd];
      change (EvCheckStop ?a ?b ?c :: ?l) with ([EvCheckStop a b c] ++ l);
      rewrite !count_app, Hb, ?IH; reflexivity.
Qed.

Lemma after_loop_events args r ths :
  Forall (fun e => loop_event e = false) (after_loop args r ths).
Proof.
  assert (F : Forall (fun e => loop_event e = false) (finally_events args ths)).
  { unfold finally_events.
    repeat (apply Forall_app; split);
      try (apply Forall_forall; intros y Hy; apply in_map_iff in Hy;
           destruct Hy as [k [<- _]]; reflexivity);
      repeat match goal with |- context [if ?b then _ else _] => destruct b end;
      repeat constructor. }
  destruct r as [[|]|x]; cbn [after_loop]; [ constructor; [ reflexivity | exact F ] | constructor | exact F ].
Qed.

(** An action of the loop found in the trace of a run sits in the part of
    the trace the loop produced. *)
Lemma loop_event_in_run args su ticks ev :
  In ev (trace (run args su ticks)) ->
  loop_event ev = true ->
  goes_on su = true
  /\ In ev (trace (while_loop args (start_time su) ticks (loop_start args su))).
Proof.
  intros Hin Hev. destruct (goes_on su) eqn:G.
  - split; [ reflexivity | ].
    destruct (run_trace args su ticks G) as [_ [_ Ht]]. rewrite Ht in Hin.
    apply in_app_or in Hin. destruct Hin as [Hin|Hin].
    + pose proof (pre_loop_events_are loop_event false args su ltac:(by_setup)) as F.
      rewrite Forall_forall in F. rewrite (F ev Hin) in Hev. discriminate.
    + apply in_app_or in Hin. destruct Hin as [Hin|Hin]; [ exact Hin | ].
      pose proof (after_loop_events args
                    (result (while_loop args (start_time su) ticks (loop_start args su)))
                    (threads (final (while_loop args (start_time su) ticks
                                       (loop_start args su))))) as F.
      rewrite Forall_forall in F. rewrite (F ev Hin) in Hev. discriminate.
  - destruct (run_trace_stopped args su ticks G) as [_ Ht]. rewrite Ht in Hin.
    unfold disk_check_events in Hin. destruct (low_disk su); [ | contradiction ].
    destruct Hin as [<-|[<-|[]]]; discriminate.
Qed.

Lemma made_before args su ticks d ev :
  goes_on su = true ->
  In (EvMkdir d) (open_session_events args su) ->
  In ev (trace (while_loop args (start_time su) ticks (loop_start args su))) ->
  exists t1 t2,
    trace (run args su ticks) = t1 ++ EvMkdir d :: t2 /\ In ev t2.
Proof.
  intros G Hd Hev.
  destruct (run_trace args su ticks G) as [_ [_ Ht]].
  assert (Hpre : In (EvMkdir d) (pre_loop_events args su)).
  { unfold pre_loop_events. apply in_or_app. right. apply in_or_app. left. exact Hd. }
  apply in_split in Hpre. destruct Hpre as [a [b Hab]].
  exists a, (b ++ trace (while_loop args (start_time su) ticks (loop_start args su))
               ++ after_loop args
                    (result (while_loop args (start_time su) ticks (loop_start args su)))
                    (threads (final (while_loop args (start_time su) ticks
                                       (loop_start args su))))).
  split.
  - rewrite Ht, Hab, <- app_assoc. reflexivity.
  - apply in_or_app. right. apply in_or_app. left. exact Hev.
Qed.

(** X11.  Whatever the script saves, the directory it goes to was made before:
    [full] before any full frame is saved, by a thread or by the scheduler
    job; [overlay] before any overlay thread is started; the directory of
    the session before any crop is saved. *)
Theorem directory_is_made_before_the_save args su ticks ev d :
  In ev (trace (run args su ticks)) ->
  save_dir ev = Some d ->
  exists t1 t2,
    trace (run args su ticks) = t1 ++ EvMkdir d :: t2 /\ In ev t2.
Proof.
  intros Hin Hd.
  assert (Hl : loop_event ev = true) by (destruct ev; try discriminate; reflexivity).
  destruct (loop_event_in_run args su ticks ev Hin Hl) as [G Hw].
  apply made_before; [ exact G | | exact Hw ].
  unfold open_session_events.
  destruct ev; try discriminate; injection Hd as <-.
  - (* crop *) right. left. reflexivity.
  - (* full-frame thread *)
    destruct (save_full_frames args) as [m|] eqn:Hf.
    + right. right. left. reflexivity.
    + exfalso.
      pose proof (while_loop_no_full_save args (start_time su) ticks Hf
                    (loop_start args su)) as Hc.
      pose proof (count_positive is_full_frame_save _ _ Hw eq_refl) as Hp.
      rewrite Hc in Hp; [ lia | ]. cbn. rewrite Hf. reflexivity.
  - (* overlay thread *)
    destruct (save_overlay_frames args) eqn:Ho.
    + right. right. cbn [app]. apply in_or_app. right. left. reflexivity.
    + exfalso.
      pose proof (while_loop_no_overlay args (start_time su) ticks
                    (loop_start args su) Ho) as Hc.
      pose proof (count_positive is_start_overlay _ _ Hw eq_refl) as Hp.
      rewrite Hc in Hp. lia.
  - (* scheduler job *)
    destruct (save_full_frames args) as [m|] eqn:Hf.
    + right. right. left. reflexivity.
    + exfalso.
      pose proof (while_loop_no_full_save args (start_time su) ticks Hf
                    (loop_start args su)) as Hc.
      pose proof (count_positive is_full_frame_save _ _ Hw eq_refl) as Hp.
      rewrite Hc in Hp; [ lia | ]. cbn. rewrite Hf. reflexivity.
Qed.

Lemma directory_is_made_before_the_save_witness :
  exists t1 t2,
    trace (run (with_full (Some det) true) (startup_with 500)
             [busy_tick 0 [1; 2] 500; busy_tick 120000 [] 500])
    = t1 ++ EvMkdir DirFull :: t2 /\ In (EvStartFull 1%nat 0%nat) t2.
Proof.
  apply (directory_is_made_before_the_save (with_full (Some det) true)
           (startup_with 500) [busy_tick 0 [1; 2] 500; busy_tick 120000 [] 500]
           (EvStartFull 1%nat 0%nat) DirFull).
  - vm_compute. tauto.
  - reflexivity.
Defined.

(** ** Auto exposure from the last tracklet (lines 315-318) *)

Lemma tracklet_ae_count args e frame_hq cp tr i tracklet s :
  count is_ae_ctrl (trace (tracklet_body args e frame_hq cp tr i tracklet s))
  = if is_TRACKED (status tracklet) && bbox_ae_region args
       && is_last (length (tracks e)) i
    then 1%nat else 0%nat.
Proof.
  unfold tracklet_body, tracklet_save, save_crop_metadata.
  rewrite trace_bind, count_app.
  match goal with |- (_ + ?c)%nat = _ => replace c with 0%nat end.
  - destruct (status tracklet), (bbox_ae_region args), (crop_fails e i),
      (save_full_frames args) as [[]|], (is_last (length (tracks e)) i),
      (save_overlay_frames args), cp; reflexivity.
  - match goal with |- _ = count _ (match ?r with _ => _ end) => destruct r end;
      [ symmetry; apply quiet_count, update_quiet; reflexivity | reflexivity ].
Qed.

Lemma for_tracks_count_last p args e frame_hq cp tr l :
  (forall i tracklet s,
      (count p (trace (tracklet_body args e frame_hq cp tr i tracklet s))
       <= if is_last (length (tracks e)) i then 1 else 0)%nat) ->
  forall i s, (i + length l = length (tracks e))%nat ->
    (count p (trace (for_tracks (tracklet_body args e frame_hq cp tr) i l s)) <= 1)%nat.
Proof.
  intros H. induction l as [|x rest IH]; intros i s Hn; cbn [for_tracks].
  - cbn. lia.
  - rewrite trace_bind, count_app.
    pose proof (H i x s) as Hx.
    destruct rest as [|y rest'].
    + destruct (result (tracklet_body args e frame_hq cp tr i x s));
        cbn [for_tracks ret trace snd count filter length];
        destruct (is_last (length (tracks e)) i); lia.
    + assert (E : is_last (length (tracks e)) i = false).
      { unfold is_last. apply Nat.eqb_neq. cbn [length] in Hn. lia. }
      rewrite E in Hx.
      destruct (result (tracklet_body args e frame_hq cp tr i x s)).
      * specialize (IH (S i) (final (tracklet_body args e frame_hq cp tr i x s))).
        cbn [length] in *. lia.
      * cbn. lia.
Qed.

(** X12.  The exposure region is set at most once per sample: only with [-ae],
    only while the last tracklet of the list is processed, only if that one
    is TRACKED, and then before its crop is saved, whether or not that save
    succeeds. *)
Theorem exposure_region_from_last_tracklet_only args e :
  (forall s, (count is_ae_ctrl (trace (process_sample args e s)) <= 1)%nat)
  /\ (forall frame_hq cp tr i tracklet s,
        count is_ae_ctrl (trace (tracklet_body args e frame_hq cp tr i tracklet s))
        = if is_TRACKED (status tracklet) && bbox_ae_region args
             && is_last (length (tracks e)) i
          then 1%nat else 0%nat).
Proof.
  split; [ | intros; apply tracklet_ae_count ].
  intros s. destruct (q_frame_has e && q_track_has e) eqn:Q.
  - rewrite (process_sample_unfold args e s Q). cbn [trace snd].
    rewrite count_app.
    replace (count is_ae_ctrl (before_for_loop args s)) with 0%nat
      by (unfold before_for_loop;
          destruct (is_freq (save_full_frames args)), (save_overlay_frames args);
          reflexivity).
    apply for_tracks_count_last; [ | reflexivity ].
    intros i x s'. rewrite tracklet_ae_count.
    destruct (is_TRACKED (status x)), (bbox_ae_region args),
      (is_last (length (tracks e)) i); cbn; lia.
  - rewrite (process_sample_idle args e s Q). cbn. lia.
Qed.

(** ** The thread list (lines 283, 329, 338, 358) *)

Lemma threads_grow_by_starts n0 args e frame_hq cp tr l i :
  inv (fun t st =>
         length (threads st)
         = (n0 + count is_start_full t + count is_start_overlay t)%nat)
      (for_tracks (tracklet_body args e frame_hq cp tr) i l).
Proof.
  assert (Hemit : forall ev, is_start_full ev = false -> is_start_overlay ev = false ->
            inv (fun t st =>
                   length (threads st)
                   = (n0 + count is_start_full t + count is_start_overlay t)%nat)
                (emit ev)).
  { intros ev H1 H2. apply inv_emit. intros t st H.
    rewrite !count_app. unfold count at 2 4. cbn [filter]. rewrite H1, H2. cbn. lia. }
  assert (Hmod : forall f, (forall st, threads (f st) = threads st) ->
            inv (fun t st =>
                   length (threads st)
                   = (n0 + count is_start_full t + count is_start_overlay t)%nat)
                (modify f)).
  { intros f Hf. apply inv_modify. intros t st H. rewrite Hf. exact H. }
  apply inv_for_tracks. intros j x _. apply inv_tracklet_body.
  - apply Hemit; reflexivity.
  - unfold save_crop_metadata. inv_structure; apply Hemit; reflexivity.
  - intros t st H. cbn. rewrite !count_app, length_app. cbn. lia.
  - intros c _ t st H. cbn. rewrite !count_app, length_app. cbn. lia.
  - apply inv_update; intros; first [ apply Hmod; reflexivity | apply Hemit; reflexivity ].
Qed.

Lemma for_tracks_full_bound args e frame_hq cp tr l i s :
  (i + length l = length (tracks e))%nat ->
  (count is_start_full (trace (for_tracks (tracklet_body args e frame_hq cp tr) i l s))
   <= if is_det (save_full_frames args) then 1 else 0)%nat.
Proof.
  intros Hn. destruct (is_det (save_full_frames args)) eqn:D.
  - apply for_tracks_full_count. exact Hn.
  - rewrite for_tracks_count_none; [ lia | ].
    intros. rewrite tracklet_full_count, D, andb_false_r. reflexivity.
Qed.

Lemma for_tracks_overlay_bound args e frame_hq cp tr l :
  forall i s,
    (count is_start_overlay
       (trace (for_tracks (tracklet_body args e frame_hq cp tr) i l s))
     <= if save_overlay_frames args then tracked_count l else 0)%nat.
Proof.
  induction l as [|x rest IH]; intros i s; cbn [for_tracks].
  - cbn. destruct (save_overlay_frames args); lia.
  - rewrite trace_bind, count_app, tracklet_overlay_count.
    unfold tracked_count in *. cbn [filter].
    destruct (result (tracklet_body args e frame_hq cp tr i x s)).
    + specialize (IH (S i) (final (tracklet_body args e frame_hq cp tr i x s))).
      destruct (is_TRACKED (status x)), (crop_fails e i), (save_overlay_frames args), cp;
        cbn [andb negb is_some length] in *; lia.
    + destruct (is_TRACKED (status x)), (crop_fails e i), (save_overlay_frames args), cp;
        cbn [andb negb is_some length count filter]; lia.
Qed.

(** X13.  An iteration leaves at most one more thread in the list when
    [-full det] is set, and one more per TRACKED tracklet when [-overlay]
    is set; with neither option the list does not grow.  After an
    iteration whose sample was processed to the end, every thread left in
    the list answered [is_alive()] with [True]. *)
Theorem thread_list_grows_with_the_options_only args e s :
  (length (threads (final (loop_body args e s)))
   <= length (threads s)
      + (if is_det (save_full_frames args) then 1 else 0)
      + (if save_overlay_frames args then tracked_count (tracks e) else 0))%nat
  /\ (result (process_sample args e s) = Ok tt ->
      Forall (fun th => is_alive e th = true) (threads (final (loop_body args e s)))).
Proof.
  assert (Hp : (length (threads (final (process_sample args e s)))
                <= length (threads s)
                   + (if is_det (save_full_frames args) then 1 else 0)
                   + (if save_overlay_frames args then tracked_count (tracks e) else 0))%nat).
  { destruct (q_frame_has e && q_track_has e) eqn:Q.
    - rewrite (process_sample_unfold args e s Q). cbn [final fst snd].
      pose proof (threads_grow_by_starts (length (threads s)) args e (frame_hq_of s)
                    (frame_hq_copy_of args s) (tracks_of s) (tracks e) 0%nat
                    [] (at_for_loop args s)) as H.
      cbn [app] in H. rewrite H by (cbn; lia).
      pose proof (for_tracks_full_bound args e (frame_hq_of s) (frame_hq_copy_of args s)
                    (tracks_of s) (tracks e) 0%nat (at_for_loop args s) eq_refl).
      pose proof (for_tracks_overlay_bound args e (frame_hq_of s)
                    (frame_hq_copy_of args s) (tracks_of s) (tracks e) 0%nat
                    (at_for_loop args s)).
      lia.
    - rewrite (process_sample_idle args e s Q). cbn [final fst snd]. lia. }
  rewrite loop_body_unfold. cbv zeta.
  destruct (result (process_sample args e s)) as [[]|x]; cbn [final fst snd].
  - split.
    + unfold after_sleep. cbn [threads set_threads].
      pose proof (filter_length_le (is_alive e)
                    (threads (final (process_sample args e s)))). lia.
    + intros _. unfold after_sleep. cbn [threads set_threads].
      apply Forall_forall. intros th Hth. apply filter_In in Hth. apply Hth.
  - split; [ exact Hp | discriminate ].
Qed.

Lemma thread_list_grows_with_the_options_only_witness :
  Forall (fun th => is_alive (busy_tick 0 [1; 2] 500) th = true)
         (threads (final (loop_body (with_full (Some det) true)
                            (busy_tick 0 [1; 2] 500) init))).
Proof.
  apply (thread_list_grows_with_the_options_only (with_full (Some det) true)
           (busy_tick 0 [1; 2] 500) init).
  reflexivity.
Defined.

(** ** Which crops a sample saves (lines 302-322) *)

Lemma sample_in_source_order_witness :
  filter is_crop
    (trace (process_sample default_args
              {| now := 0; q_frame_has := true; q_track_has := true;
                 tracks := [tracked 4; {| id := 5; status := LOST; label := 0 |};
                            {| id := 6; status := NEW; label := 0 |}; tracked 2];
                 crop_fails := fun _ => false; free_bytes := 500 * MB;
                 is_alive := fun _ => false; full_fires := false;
                 interrupt := false |} init))
  = [EvSaveCrop 0%nat 4 true; EvSaveCrop 0%nat 2 true].
Proof.
  refine (proj1 (sample_in_source_order default_args _ init _ _ _)); reflexivity.
Defined.

(** ** The frame the scheduler job saves (lines 294-296) *)

(** X15.  With [-full freq], when the interval of the job elapses in an iteration
    that found a sample and processed it to the end, [save_full_frame] is
    called on the scheduler thread with the frame of that very iteration:
    the object [frame_hq] itself, of which no copy was made. *)
Theorem scheduler_job_saves_the_frame_of_the_tick args e s :
  save_full_frames args = Some freq ->
  q_frame_has e && q_track_has e = true ->
  result (process_sample args e s) = Ok tt ->
  full_fires e = true ->
  In (EvFullJobFires (Some (frame_hq_of s))) (trace (loop_body args e s))
  /\ full_job (final (loop_body args e s)) = Some (Some (frame_hq_of s)).
Proof.
  intros Hf Hq Hr Hfire.
  pose proof (modify_job_on_sample args e s Hf Hq) as Hj.
  rewrite loop_body_unfold. cbv zeta. rewrite Hr. cbn [trace final fst snd].
  split.
  - apply in_or_app. right. unfold end_of_iteration. rewrite Hfire, Hj.
    apply in_or_app. right. left. reflexivity.
  - unfold after_sleep. cbn. exact Hj.
Qed.

Lemma scheduler_job_saves_the_frame_of_the_tick_witness :
  In (EvFullJobFires (Some 0%nat))
     (trace (loop_body (with_full (Some freq) false)
               {| now := 0; q_frame_has := true; q_track_has := true;
                  tracks := [tracked 1]; crop_fails := fun _ => false;
                  free_bytes := 500 * MB; is_alive := fun _ => false;
                  full_fires := true; interrupt := false |} init)).
Proof.
  refine (proj1 (scheduler_job_saves_the_frame_of_the_tick
                   (with_full (Some freq) false) _ init _ _ _ _)); reflexivity.
Defined.
